(** * disco.types.channel: permission resolution, message deletion and
      the message iterator

    A shallow embedding of [disco/types/channel.py].  The module is written
    for Python 2 and Python 3 (it imports [six] and defines [next] beside
    [__next__]); where the two differ, in what [map] returns, the runtime
    is a parameter of the embedding.

    - Python exceptions are the [Raise] case of [Result]; a method that
      mutates [self] or calls the remote API is a function of the monad
      [M S], a state monad whose state survives an exception, as an
      object's fields do.
    - Dictionaries used for lookup ([guild.members], [state.guilds]) are
      [gmap]s; [Channel.overwrites] is iterated, so it is the list of its
      values in iteration order.
    - Every call of [self.client.api] is recorded in a log of [ApiCall]s. *)

From Stdlib Require Import ZArith List Lia.
From stdpp Require Import base option list gmap strings.

Open Scope Z_scope.

(** ** Python values *)

Definition snowflake := Z.

(** Truth value of an optional integer: [None] and [0] are falsy. *)
Definition truthy (x : option snowflake) : bool :=
  match x with
  | None => false
  | Some n => negb (n =? 0)
  end.

(** [any(xs)] on a tuple of optional integers. *)
Definition any (xs : list (option snowflake)) : bool := existsb truthy xs.

Inductive exn : Type :=
| StopIteration
| AttributeError
| IndexError
| TypeError
| Exception (msg : string).

Inductive Result (A : Type) : Type :=
| Return (a : A)
| Raise (e : exn).
Arguments Return {A} a.
Arguments Raise {A} e.

(** Statements that read and write a state [S] and may raise. *)
Definition M (S A : Type) : Type := S -> Result A * S.

Definition ret {S A} (a : A) : M S A := fun s => (Return a, s).

Definition raise {S A} (e : exn) : M S A := fun s => (Raise e, s).

Definition bind {S A B} (m : M S A) (k : A -> M S B) : M S B :=
  fun s =>
    match m s with
    | (Return a, s') => k a s'
    | (Raise e, s') => (Raise e, s')
    end.

Definition get {S} : M S S := fun s => (Return s, s).

Definition modify {S} (f : S -> S) : M S unit := fun s => (Return tt, f s).

#[global] Instance M_ret {S} : MRet (M S) := fun A a => ret a.
#[global] Instance M_bind {S} : MBind (M S) := fun A B k m => bind m k.

(** ** Permissions *)

Definition PermissionValue := Z.

Module Perm.

(** Modelled from the spec: [PermissionValue.__isub__], declared in
      disco.types.permissions; "remove denied bits". *)
Definition sub (value other : PermissionValue) : PermissionValue :=
    Z.land value (Z.lnot other).

(** Modelled from the spec: [PermissionValue.__iadd__], declared in
      disco.types.permissions; "add allowed bits". *)
Definition add (value other : PermissionValue) : PermissionValue :=
    Z.lor value other.

End Perm.

Inductive PermissionOverwriteType : Type := ROLE | MEMBER.

Module PermissionOverwrite.
Record t : Type := Build {
    id : snowflake;
    type : PermissionOverwriteType;
    allow : PermissionValue;
    deny : PermissionValue
  }.
End PermissionOverwrite.

Module User.
Record t : Type := Build { id : snowflake }.
End User.

Module GuildMember.
Record t : Type := Build { roles : list snowflake }.
End GuildMember.

(** The guild collaborator: its member dictionary and its own
    [get_permissions], which computes the base value from the roles. *)
Module Guild.
Record t : Type := Build {
    members : gmap snowflake GuildMember.t;
    get_permissions : User.t -> Result PermissionValue
  }.
End Guild.

(** [client.state] *)
Module State.
Record t : Type := Build { guilds : gmap snowflake Guild.t }.
End State.

Inductive ChannelType : Type := GUILD_TEXT | DM | GUILD_VOICE | GROUP_DM.

Module Channel.
Record t : Type := Build {
    id : snowflake;
    guild_id : option snowflake;
    type : ChannelType;
    overwrites : list PermissionOverwrite.t
  }.
End Channel.

(** [x in xs] on a list of ids *)
Definition contains (x : snowflake) (xs : list snowflake) : bool :=
  existsb (Z.eqb x) xs.

(** [self.guild]: [self.client.state.guilds.get(self.guild_id)] *)
Definition Channel_guild (state : State.t) (self : Channel.t) : option Guild.t :=
  match Channel.guild_id self with
  | Some g => State.guilds state !! g
  | None => None
  end.

(** One round of the loop of [get_permissions].  [member.roles] is only
    evaluated when [ow.id != user.id]; with [member] being [None] that
    attribute access raises. *)
Definition overwrite_step (user : User.t) (member : option GuildMember.t)
    (base : PermissionValue) (ow : PermissionOverwrite.t)
  : Result PermissionValue :=
  let apply := Return (Perm.add (Perm.sub base (PermissionOverwrite.deny ow))
                                (PermissionOverwrite.allow ow)) in
  if negb (PermissionOverwrite.id ow =? User.id user) then
    match member with
    | None => Raise AttributeError
    | Some m =>
        if negb (contains (PermissionOverwrite.id ow) (GuildMember.roles m))
        then Return base
        else apply
    end
  else apply.

Fixpoint overwrites_loop (user : User.t) (member : option GuildMember.t)
    (ows : list PermissionOverwrite.t) (base : PermissionValue)
  : Result PermissionValue :=
  match ows with
  | [] => Return base
  | ow :: rest =>
      match overwrite_step user member base ow with
      | Return base' => overwrites_loop user member rest base'
      | Raise e => Raise e
      end
  end.

Section Permissions.

(** [Permissions.ADMINISTRATOR], a constant of disco.types.permissions. *)
Variable ADMINISTRATOR : PermissionValue.

Definition get_permissions (state : State.t) (self : Channel.t)
      (user : User.t) : Result PermissionValue :=
    if negb (truthy (Channel.guild_id self)) then Return ADMINISTRATOR
    else
      match Channel_guild state self with
      | None => Raise AttributeError
      | Some guild =>
          let member := Guild.members guild !! User.id user in
          match Guild.get_permissions guild user with
          | Raise e => Raise e
          | Return base =>
              overwrites_loop user member (Channel.overwrites self) base
          end
      end.

End Permissions.

(** ** The remote API *)

Module Message.
Record t : Type := Build { id : snowflake }.
End Message.

(** The requests this module sends through [self.client.api]. *)
Inductive ApiCall : Type :=
| channels_messages_list (channel : snowflake)
    (before after : option snowflake) (limit : Z)
| channels_messages_delete (channel message : snowflake)
| channels_messages_delete_bulk (channel : snowflake)
    (messages : list snowflake).

(** The client: what the remote answers to a listing request. *)
Module Client.
Record t : Type := Build {
  messages_list :
    snowflake -> option snowflake -> option snowflake -> Z -> list Message.t
}.
End Client.

(** ** Channel.delete_messages *)

(** A message or a message id, as [to_snowflake] accepts them. *)
Inductive MessageRef : Type :=
| by_id (i : snowflake)
| by_message (m : Message.t).

Definition to_snowflake (r : MessageRef) : snowflake :=
  match r with
  | by_id i => i
  | by_message m => Message.id m
  end.

Fixpoint chunks_from {A} (rounds : nat) (obj : list A) (size : nat)
  : list (list A) :=
  match rounds, obj with
  | S k, _ :: _ => take size obj :: chunks_from k (drop size obj) size
  | _, _ => []
  end.

(** Modelled from the spec: [chunks] of disco.util.functional, which
    partitions a list into consecutive pages of at most [size] elements. *)
Definition chunks {A} (obj : list A) (size : nat) : list (list A) :=
  chunks_from (length obj) obj size.

(** The interpreter that runs the module. *)
Inductive Runtime : Type := Python2 | Python3.

(** The value of [map(f, xs)]: a list on Python 2, a map object that
    yields the same items on Python 3. *)
Inductive Mapped (A : Type) : Type :=
| map_list (items : list A)
| map_object (items : list A).
Arguments map_list {A} items.
Arguments map_object {A} items.

Definition py_map {A B} (runtime : Runtime) (f : A -> B) (xs : list A)
  : Mapped B :=
  match runtime with
  | Python2 => map_list (map f xs)
  | Python3 => map_object (map f xs)
  end.

(** [not xs]: an empty list is falsy, a map object never is. *)
Definition py_not {A} (xs : Mapped A) : bool :=
  match xs with
  | map_list items => (length items =? 0)%nat
  | map_object _ => false
  end.

(** [len(xs)]: a map object has no length. *)
Definition py_len {S A} (xs : Mapped A) : M S nat :=
  match xs with
  | map_list items => ret (length items)
  | map_object _ => raise TypeError
  end.

(** The items a loop over [xs] visits. *)
Definition py_items {A} (xs : Mapped A) : list A :=
  match xs with
  | map_list items => items
  | map_object items => items
  end.

(** What becomes of a request of the client, given the calls made before
    it: [None] when it succeeds, the exception the client raises
    otherwise. *)
Definition ApiFailures : Type := list ApiCall -> ApiCall -> option exn.

(** A call of [self.client.api]: it is recorded, and its failure, if any,
    is raised to the caller. *)
Definition api_call (fails : ApiFailures) (c : ApiCall)
  : M (list ApiCall) unit :=
  fun log =>
    match fails log c with
    | None => (Return tt, log ++ [c])
    | Some e => (Raise e, log ++ [c])
    end.

(** [for x in xs: body] *)
Fixpoint for_each {S A} (xs : list A) (body : A -> M S unit) : M S unit :=
  match xs with
  | [] => ret tt
  | x :: rest => body x;; for_each rest body
  end.

Definition delete_message (fails : ApiFailures) (self : Channel.t)
    (message : MessageRef) : M (list ApiCall) unit :=
  api_call fails
    (channels_messages_delete (Channel.id self) (to_snowflake message)).

Definition delete_messages (runtime : Runtime) (fails : ApiFailures)
    (self : Channel.t) (messages : list MessageRef)
  : M (list ApiCall) unit :=
  let messages := py_map runtime to_snowflake messages in
  if py_not messages then ret tt
  else
    n ← py_len messages;
    if (n <=? 2)%nat then
      for_each (py_items messages)
        (fun msg => delete_message fails self (by_id msg))
    else
      for_each (chunks (py_items messages) 100)
        (fun chunk =>
           api_call fails
             (channels_messages_delete_bulk (Channel.id self) chunk)).

(** The calls of a list made in turn, up to the first that fails. *)
Fixpoint send_all (fails : ApiFailures) (calls : list ApiCall)
    (log : list ApiCall) : Result unit * list ApiCall :=
  match calls with
  | [] => (Return tt, log)
  | c :: rest =>
      match fails log c with
      | None => send_all fails rest (log ++ [c])
      | Some e => (Raise e, log ++ [c])
      end
  end.

(** A client whose requests all succeed. *)
Definition reliable : ApiFailures := fun _ _ => None.

(** A client that refuses to delete message 12. *)
Definition refuses_12 : ApiFailures :=
  fun _ c =>
    match c with
    | channels_messages_delete _ 12 => Some (Exception "HTTP 403")
    | _ => None
    end.

(** ** MessageIterator *)

Inductive Direction : Type := UP | DOWN.

Definition Direction_eqb (a b : Direction) : bool :=
  match a, b with
  | UP, UP | DOWN, DOWN => true
  | _, _ => false
  end.

Module MessageIterator.
Record t : Type := Build {
  client : Client.t;
  channel : snowflake;
  direction : Direction;
  bulk : bool;
  before : option snowflake;
  after : option snowflake;
  chunk_size : Z;
  last : option Message.t;
  _buffer : list Message.t
}.

Definition set_before (v : option snowflake) (self : t) : t :=
  Build (client self) (channel self) (direction self) (bulk self)
        v (after self) (chunk_size self) (last self) (_buffer self).

Definition set_after (v : option snowflake) (self : t) : t :=
  Build (client self) (channel self) (direction self) (bulk self)
        (before self) v (chunk_size self) (last self) (_buffer self).

Definition set_buffer (v : list Message.t) (self : t) : t :=
  Build (client self) (channel self) (direction self) (bulk self)
        (before self) (after self) (chunk_size self) (last self) v.
End MessageIterator.

(** The iterator object together with the log of the requests sent. *)
Record World : Type := Build_World {
  self : MessageIterator.t;
  api_log : list ApiCall
}.

Definition update_self (f : MessageIterator.t -> MessageIterator.t)
  : M World unit :=
  modify (fun w => Build_World (f (self w)) (api_log w)).

Definition get_self : M World MessageIterator.t :=
  fun w => (Return (self w), w).

(** [self.client.api.channels_messages_list(channel, before, after, limit)] *)
Definition api_channels_messages_list (channel : snowflake)
    (before after : option snowflake) (limit : Z)
  : M World (list Message.t) :=
  fun w =>
    (Return (Client.messages_list (MessageIterator.client (self w))
               channel before after limit),
     Build_World (self w)
       (api_log w ++ [channels_messages_list channel before after limit])).

(** [xs[-1]] *)
Definition last_item {S A} (xs : list A) : M S A :=
  match last xs with
  | Some x => ret x
  | None => raise IndexError
  end.

(** An expression statement: the value is computed and dropped. *)
Definition expr {S A} (value : A) : M S unit := ret tt.

Definition option_eqb (a b : option snowflake) : bool :=
  match a, b with
  | Some x, Some y => x =? y
  | None, None => true
  | _, _ => false
  end.

Definition MessageIterator__init__ (client : Client.t) (channel : snowflake)
    (direction : Direction) (bulk : bool) (before after : option snowflake)
    (chunk_size : Z) : Result MessageIterator.t :=
  let self :=
    MessageIterator.Build client channel direction bulk before after
      chunk_size None [] in
  if negb (any [before; after]) && Direction_eqb direction DOWN then
    Raise (Exception
             "Must specify either before or after for downward seeking")
  else Return self.

Definition fill : M World unit :=
  it ← get_self;
  page ← api_channels_messages_list (MessageIterator.channel it)
           (MessageIterator.before it) (MessageIterator.after it)
           (MessageIterator.chunk_size it);
  update_self (MessageIterator.set_buffer page);;
  if (length page =? 0)%nat then raise StopIteration
  else
    update_self (MessageIterator.set_after None);;
    update_self (MessageIterator.set_before None);;
    if Direction_eqb (MessageIterator.direction it) UP then
      m ← last_item page;
      update_self (MessageIterator.set_before (Some (Message.id m)))
    else
      update_self (MessageIterator.set_buffer (reverse page));;
      m ← last_item (reverse page);
      it' ← get_self;
      expr (option_eqb (MessageIterator.after it') (Some (Message.id m))).

(** What [next] hands out: one message, or a batch in bulk mode. *)
Inductive Yield : Type :=
| Single (m : Message.t)
| Batch (ms : list Message.t).

(** [self._buffer.pop()] *)
Definition buffer_pop : M World Message.t :=
  it ← get_self;
  m ← last_item (MessageIterator._buffer it);
  update_self (MessageIterator.set_buffer
                 (removelast (MessageIterator._buffer it)));;
  ret m.

Definition __next__ : M World Yield :=
  it ← get_self;
  (if (length (MessageIterator._buffer it) =? 0)%nat then fill else ret tt);;
  it ← get_self;
  if MessageIterator.bulk it then
    let res := MessageIterator._buffer it in
    update_self (MessageIterator.set_buffer []);;
    ret (Batch res)
  else
    m ← buffer_pop;
    ret (Single m).

Definition next : M World Yield := __next__.

(** A fresh iterator and an empty log. *)
Definition start (it : MessageIterator.t) : World := Build_World it [].

(** The request [fill] sends from a given iterator, and its answer. *)
Definition request (it : MessageIterator.t) : ApiCall :=
  channels_messages_list (MessageIterator.channel it)
    (MessageIterator.before it) (MessageIterator.after it)
    (MessageIterator.chunk_size it).

Definition response (it : MessageIterator.t) : list Message.t :=
  Client.messages_list (MessageIterator.client it)
    (MessageIterator.channel it) (MessageIterator.before it)
    (MessageIterator.after it) (MessageIterator.chunk_size it).

(** The iterator [fill] leaves behind when the fetched page ends in [m]. *)
Definition filled (it : MessageIterator.t) (m : Message.t)
  : MessageIterator.t :=
  if Direction_eqb (MessageIterator.direction it) UP then
    MessageIterator.Build (MessageIterator.client it)
      (MessageIterator.channel it) (MessageIterator.direction it)
      (MessageIterator.bulk it) (Some (Message.id m)) None
      (MessageIterator.chunk_size it) (MessageIterator.last it) (response it)
  else
    MessageIterator.Build (MessageIterator.client it)
      (MessageIterator.channel it) (MessageIterator.direction it)
      (MessageIterator.bulk it) None None
      (MessageIterator.chunk_size it) (MessageIterator.last it)
      (reverse (response it)).

(** The second half of [__next__]: hand out from the buffer. *)
Definition deliver (w : World) : Result Yield * World :=
  let it := self w in
  if MessageIterator.bulk it then
    (Return (Batch (MessageIterator._buffer it)),
     Build_World (MessageIterator.set_buffer [] it) (api_log w))
  else
    match last (MessageIterator._buffer it) with
    | Some m =>
        (Return (Single m),
         Build_World
           (MessageIterator.set_buffer
              (removelast (MessageIterator._buffer it)) it)
           (api_log w))
    | None => (Raise IndexError, w)
    end.

(** [n] calls of [next], stopping at the first one that raises. *)
Fixpoint pull (n : nat) (w : World) : list Yield * option exn * World :=
  match n with
  | O => ([], None, w)
  | S k =>
      match next w with
      | (Return y, w') =>
          let '(ys, e, w'') := pull k w' in (y :: ys, e, w'')
      | (Raise e, w') => ([], Some e, w')
      end
  end.

(** A caller's use of the two public methods, in any order; a caller may
    go on after an exception. *)
Inductive Method : Type := call_fill | call_next.

Definition invoke (m : Method) (w : World) : World :=
  match m with
  | call_fill => snd (fill w)
  | call_next => snd (next w)
  end.

Definition invoke_all (ms : list Method) (w : World) : World :=
  fold_left (fun w m => invoke m w) ms w.

(** ** The remote message store *)

(** Modelled from the spec: the remote listing of section 6,
    [listMessages(channelId, before?, after?, limit)], over a history kept
    oldest to newest.  It answers newest first: with [after] the [limit]
    messages that follow the cursor, otherwise the [limit] newest ones
    (older than [before] when that cursor is given). *)
Definition listMessages (history : list Message.t)
    (before after : option snowflake) (limit : Z) : list Message.t :=
  let older :=
    match before with
    | Some b => List.filter (fun m => Message.id m <? b) history
    | None => history
    end in
  let window :=
    match after with
    | Some a => List.filter (fun m => a <? Message.id m) older
    | None => older
    end in
  let n := Z.to_nat limit in
  reverse (match after with
           | Some _ => take n window
           | None => drop (length window - n)%nat window
           end).

Definition remote (history : list Message.t) : Client.t :=
  Client.Build (fun _ before after limit =>
                  listMessages history before after limit).

(** Ids grow along a history. *)
Fixpoint increasing (h : list Message.t) : bool :=
  match h with
  | [] => true
  | a :: rest =>
      match rest with
      | [] => true
      | b :: _ => (Message.id a <? Message.id b) && increasing rest
      end
  end.

(** Messages numbered [first], [first + 1], ... *)
Definition numbered (first : Z) (count : nat) : list Message.t :=
  map (fun i => Message.Build (first + Z.of_nat i)) (seq 0 count).

(** ** The resolver as the specification words it *)

(** An overwrite counts when it targets the user or one of the member's
    roles. *)
Definition spec_targets (user : User.t) (member : GuildMember.t)
    (ow : PermissionOverwrite.t) : bool :=
  (PermissionOverwrite.id ow =? User.id user)
  || contains (PermissionOverwrite.id ow) (GuildMember.roles member).

(** [base = (base - deny) + allow] *)
Definition spec_merge (base : PermissionValue) (ow : PermissionOverwrite.t)
  : PermissionValue :=
  Perm.add (Perm.sub base (PermissionOverwrite.deny ow))
           (PermissionOverwrite.allow ow).

Definition spec_resolve (user : User.t) (member : GuildMember.t)
    (ows : list PermissionOverwrite.t) (base : PermissionValue)
  : PermissionValue :=
  fold_left
    (fun base ow => if spec_targets user member ow then spec_merge base ow
                    else base)
    ows base.

(** ** Sample data *)

Definition everyone_role : snowflake := 40.
Definition alice : User.t := User.Build 7.
Definition alice_member : GuildMember.t := GuildMember.Build [everyone_role].

Definition sample_guild : Guild.t :=
  Guild.Build {[ 7 := alice_member ]} (fun _ => Return 3).

Definition sample_state : State.t := State.Build {[ 100 := sample_guild ]}.

Definition sample_channel : Channel.t :=
  Channel.Build 1 (Some 100) GUILD_TEXT
    [ PermissionOverwrite.Build everyone_role ROLE 0 1;
      PermissionOverwrite.Build 8 MEMBER 16 2;
      PermissionOverwrite.Build 7 MEMBER 4 0 ].

Definition dm_channel : Channel.t :=
  Channel.Build 2 None DM [ PermissionOverwrite.Build 7 MEMBER 0 8 ].

(** A channel of two messages, read upwards one message at a time, after
    the first call of [next]: one message of the page is still buffered. *)
Definition two_messages : MessageIterator.t :=
  MessageIterator.Build (remote (numbered 1 2)) 5 UP false None None 100
    None [].

Definition halfway : World := snd (pull 1 (start two_messages)).

(** A channel of 101 messages, read downwards from the oldest one. *)
Definition downwards : MessageIterator.t :=
  MessageIterator.Build (remote (numbered 1 101)) 5 DOWN false None (Some 1)
    100 None [].

(** ** Invariants and relations of the proofs *)

(** A downward scan that has lost its cursors: every request it sends is
    the same uncursored one. *)
Definition uncursored (ch : snowflake) (limit : Z) (w : World) : Prop :=
  MessageIterator.direction (self w) = DOWN /\
  MessageIterator.before (self w) = None /\
  MessageIterator.after (self w) = None /\
  MessageIterator.channel (self w) = ch /\
  MessageIterator.chunk_size (self w) = limit.

(** The ids 1, 2, ..., [count]. *)
Definition seq_ids (count : nat) : list snowflake :=
  map Z.of_nat (seq 1 count).

(** The same iterator in per-message mode. *)
Definition as_single (it : MessageIterator.t) : MessageIterator.t :=
  MessageIterator.Build (MessageIterator.client it)
    (MessageIterator.channel it) (MessageIterator.direction it) false
    (MessageIterator.before it) (MessageIterator.after it)
    (MessageIterator.chunk_size it) (MessageIterator.last it)
    (MessageIterator._buffer it).

(** A bulk iterator between two batches and its per-message twin at the
    same point of the scan. *)
Definition twins (wb ws : World) : Prop :=
  MessageIterator.bulk (self wb) = true /\
  MessageIterator._buffer (self wb) = [] /\
  self ws = as_single (self wb) /\
  api_log ws = api_log wb.

(** The call that met the exception, when a run ended with one. *)
Definition closing (stop : option exn) : nat :=
  match stop with
  | Some _ => 1
  | None => 0
  end.

(** A short history for both modes. *)
Definition bulk_five : MessageIterator.t :=
  MessageIterator.Build (remote (numbered 1 5)) 5 UP true None None 2 None [].

Definition single_five : MessageIterator.t :=
  MessageIterator.Build (remote (numbered 1 5)) 5 UP false None None 2 None [].

(** ** Channel categories and the default iterator *)

Definition ChannelType_eqb (a b : ChannelType) : bool :=
  match a, b with
  | GUILD_TEXT, GUILD_TEXT | DM, DM | GUILD_VOICE, GUILD_VOICE
  | GROUP_DM, GROUP_DM => true
  | _, _ => false
  end.

(** [t in (a, b)] on channel types *)
Definition type_in (t : ChannelType) (ts : list ChannelType) : bool :=
  existsb (ChannelType_eqb t) ts.

Definition is_guild (self : Channel.t) : bool :=
  type_in (Channel.type self) [GUILD_TEXT; GUILD_VOICE].

Definition is_dm (self : Channel.t) : bool :=
  type_in (Channel.type self) [DM; GROUP_DM].

Definition is_voice (self : Channel.t) : bool :=
  type_in (Channel.type self) [GUILD_VOICE; GROUP_DM].

(** The keyword arguments of [messages_iter]; an argument left out is
    [None] and takes the default of [MessageIterator.__init__]. *)
Module IterArgs.
Record t : Type := Build {
  direction : option Direction;
  bulk : option bool;
  before : option snowflake;
  after : option snowflake;
  chunk_size : option Z
}.
End IterArgs.

Definition messages_iter (client : Client.t) (self : Channel.t)
    (kwargs : IterArgs.t) : Result MessageIterator.t :=
  MessageIterator__init__ client (Channel.id self)
    (default UP (IterArgs.direction kwargs))
    (default false (IterArgs.bulk kwargs))
    (IterArgs.before kwargs) (IterArgs.after kwargs)
    (default 100 (IterArgs.chunk_size kwargs)).

(** The [messages] property: [self.messages_iter()] *)
Definition messages (client : Client.t) (self : Channel.t)
  : Result MessageIterator.t :=
  messages_iter client self (IterArgs.Build None None None None None).

(** The fields no method of the iterator assigns. *)
Definition same_settings (a b : MessageIterator.t) : Prop :=
  MessageIterator.client a = MessageIterator.client b /\
  MessageIterator.channel a = MessageIterator.channel b /\
  MessageIterator.direction a = MessageIterator.direction b /\
  MessageIterator.bulk a = MessageIterator.bulk b /\
  MessageIterator.chunk_size a = MessageIterator.chunk_size b /\
  MessageIterator.last a = MessageIterator.last b.

(** The buffer [fill] stores for a page, by direction. *)
Definition stored (direction : Direction) (page : list Message.t)
  : list Message.t :=
  if Direction_eqb direction UP then page else reverse page.

(** The cursor that exposes the first [k] messages of a history. *)
Definition cursor_at (h : list Message.t) (k : nat) : option snowflake :=
  match h !! k with
  | Some m => Some (Message.id m)
  | None => None
  end.

(** The code's test for an overwrite that is passed over. *)
Definition skipped (user : User.t) (member : GuildMember.t)
    (ow : PermissionOverwrite.t) : Prop :=
  PermissionOverwrite.id ow <> User.id user /\
  contains (PermissionOverwrite.id ow) (GuildMember.roles member) = false.

(** Sample data for the further properties *)
Definition voice_channel : Channel.t :=
  Channel.Build 3 (Some 100) GUILD_VOICE
    [ PermissionOverwrite.Build 7 MEMBER 4 1;
      PermissionOverwrite.Build 9 MEMBER 0 2 ].

Definition stranger : User.t := User.Build 8.

(** * Properties *)

(** ** Permission resolution *)

Lemma overwrite_step_member user member base ow :
  overwrite_step user (Some member) base ow =
  Return (if spec_targets user member ow then spec_merge base ow else base).
Proof.
  unfold overwrite_step, spec_targets, spec_merge.
  destruct (PermissionOverwrite.id ow =? User.id user); simpl; [reflexivity|].
  destruct (contains _ _); reflexivity.
Qed.

Lemma overwrites_loop_member user member ows :
  forall base,
    overwrites_loop user (Some member) ows base =
    Return (spec_resolve user member ows base).
Proof.
  induction ows as [|ow rest IH]; intros base; [reflexivity|].
  cbn [overwrites_loop]. rewrite overwrite_step_member. apply IH.
Qed.

(** C1: in a guild channel whose guild resolves to a base value,
    [get_permissions] folds the overwrites over that base: an overwrite
    whose id is the user's or one of the member's roles turns [base] into
    [(base - deny) + allow], any other leaves it as it is; without
    overwrites the base comes back unchanged. *)
Theorem C1_get_permissions_folds_overwrites
    (ADMINISTRATOR : PermissionValue) (state : State.t) (chan : Channel.t)
    (user : User.t) (guild : Guild.t) (base : PermissionValue) :
  truthy (Channel.guild_id chan) = true ->
  Channel_guild state chan = Some guild ->
  Guild.get_permissions guild user = Return base ->
  (forall member,
      Guild.members guild !! User.id user = Some member ->
      get_permissions ADMINISTRATOR state chan user =
      Return (spec_resolve user member (Channel.overwrites chan) base))
  /\ (Channel.overwrites chan = [] ->
      get_permissions ADMINISTRATOR state chan user = Return base).
Proof.
  intros Hgid Hguild Hbase. unfold get_permissions.
  rewrite Hgid, Hguild, Hbase. cbn [negb]. split.
  - intros member Hmember. rewrite Hmember. apply overwrites_loop_member.
  - intros Hnone. rewrite Hnone. reflexivity.
Qed.

Lemma C1_witness :
  get_permissions 8 sample_state sample_channel alice = Return 6.
Proof.
  destruct (C1_get_permissions_folds_overwrites 8 sample_state sample_channel
              alice sample_guild 3) as [Hfold _];
    [reflexivity | reflexivity | reflexivity |].
  rewrite (Hfold alice_member); reflexivity.
Defined.

(** Without a member entry for the user the lookup failure is not masked:
    the first overwrite with another id raises. *)
Lemma get_permissions_member_missing
    (ADMINISTRATOR : PermissionValue) (state : State.t) (chan : Channel.t)
    (user : User.t) (guild : Guild.t) (base : PermissionValue)
    (ow : PermissionOverwrite.t) (rest : list PermissionOverwrite.t) :
  truthy (Channel.guild_id chan) = true ->
  Channel_guild state chan = Some guild ->
  Guild.get_permissions guild user = Return base ->
  Guild.members guild !! User.id user = None ->
  Channel.overwrites chan = ow :: rest ->
  PermissionOverwrite.id ow <> User.id user ->
  get_permissions ADMINISTRATOR state chan user = Raise AttributeError.
Proof.
  intros Hgid Hguild Hbase Hmember Hows Hid. unfold get_permissions.
  rewrite Hgid, Hguild, Hbase, Hmember, Hows. cbn [negb overwrites_loop].
  unfold overwrite_step.
  destruct (Z.eqb_spec (PermissionOverwrite.id ow) (User.id user));
    [contradiction|reflexivity].
Qed.

(** C4: a channel without a guild id answers [Permissions.ADMINISTRATOR]
    for every user, whatever overwrites it carries. *)
Theorem C4_no_guild_is_administrator
    (ADMINISTRATOR : PermissionValue) (state : State.t) (chan : Channel.t)
    (user : User.t) :
  Channel.guild_id chan = None ->
  get_permissions ADMINISTRATOR state chan user = Return ADMINISTRATOR.
Proof.
  intros Hnone. unfold get_permissions. rewrite Hnone. reflexivity.
Qed.

Lemma C4_witness :
  get_permissions 8 sample_state dm_channel alice = Return 8.
Proof.
  apply (C4_no_guild_is_administrator 8 sample_state dm_channel alice).
  reflexivity.
Defined.

(** C9: the order in which two overwrites that both apply to a user are
    processed can change the result: with a role overwrite denying bit 1
    and a member overwrite allowing it, the bit ends up set when the member
    overwrite comes last and cleared when it comes first. *)
Theorem C9_overwrite_order_matters :
  exists (base : PermissionValue) (state : State.t) (user : User.t)
         (member : GuildMember.t) (A B : PermissionOverwrite.t),
    spec_targets user member A = true /\
    spec_targets user member B = true /\
    spec_merge (spec_merge base A) B <> spec_merge (spec_merge base B) A /\
    forall ADMINISTRATOR,
      get_permissions ADMINISTRATOR state
        (Channel.Build 1 (Some 100) GUILD_TEXT [A; B]) user
      = Return (spec_merge (spec_merge base A) B) /\
      get_permissions ADMINISTRATOR state
        (Channel.Build 1 (Some 100) GUILD_TEXT [B; A]) user
      = Return (spec_merge (spec_merge base B) A).
Proof.
  exists 3, sample_state, alice, alice_member,
    (PermissionOverwrite.Build everyone_role ROLE 0 1),
    (PermissionOverwrite.Build 7 MEMBER 1 0).
  split; [reflexivity|]. split; [reflexivity|].
  split; [vm_compute; discriminate|].
  intros ADMINISTRATOR. split; reflexivity.
Qed.

(** ** MessageIterator.fill *)

Lemma length_eqb_0 {A} (l : list A) :
  (length l =? 0)%nat = match l with [] => true | _ => false end.
Proof. destruct l; reflexivity. Qed.

Lemma last_reverse_cons {A} (x : A) (l : list A) :
  last (reverse (x :: l)) = Some x.
Proof. rewrite last_reverse. reflexivity. Qed.

Lemma fill_unfold (w : World) :
  fill w =
  match last (response (self w)) with
  | None =>
      (Raise StopIteration,
       Build_World (MessageIterator.set_buffer [] (self w))
                   (api_log w ++ [request (self w)]))
  | Some m =>
      (Return tt,
       Build_World (filled (self w) m) (api_log w ++ [request (self w)]))
  end.
Proof.
  destruct w as [it log].
  unfold fill, filled, response, request, get_self,
    api_channels_messages_list, update_self, modify, last_item, expr,
    mbind, mret, M_bind, M_ret, bind, ret, raise.
  cbn [self api_log fst snd].
  set (page := Client.messages_list _ _ _ _ _).
  rewrite length_eqb_0.
  destruct page as [|a l] eqn:Hpage; [reflexivity|].
  destruct (last (a :: l)) as [m|] eqn:Hlast;
    [|apply last_None in Hlast; discriminate].
  destruct (Direction_eqb (MessageIterator.direction it) UP).
  - reflexivity.
  - rewrite last_reverse_cons. reflexivity.
Qed.

Lemma next_unfold (w : World) :
  next w =
  match MessageIterator._buffer (self w) with
  | [] =>
      match fill w with
      | (Return _, w1) => deliver w1
      | (Raise e, w1) => (Raise e, w1)
      end
  | _ :: _ => deliver w
  end.
Proof.
  unfold next, __next__.
  unfold mbind at 1. unfold M_bind, bind at 1, get_self at 1.
  unfold mbind at 1. unfold M_bind, bind at 1.
  rewrite length_eqb_0.
  assert (Hdeliver : forall w1 : World,
             (it ← get_self;
              if MessageIterator.bulk it
              then update_self (MessageIterator.set_buffer []);;
                   mret (Batch (MessageIterator._buffer it))
              else m ← buffer_pop; mret (Single m)) w1 = deliver w1).
  { intros [it log].
    unfold deliver, buffer_pop, get_self, update_self, modify, last_item,
      mbind, mret, M_bind, M_ret, bind, ret, raise.
    simpl. destruct (MessageIterator.bulk it); [reflexivity|]. simpl.
    destruct (last (MessageIterator._buffer it)); reflexivity. }

  destruct (MessageIterator._buffer (self w)) as [|a l].
  - destruct (fill w) as [[[]|e] w1]; [apply Hdeliver|reflexivity].
  - unfold mret, M_ret, ret. apply Hdeliver.
Qed.

Lemma fill_stops (w : World) :
  response (self w) = [] ->
  fill w =
  (Raise StopIteration,
   Build_World (MessageIterator.set_buffer [] (self w))
               (api_log w ++ [request (self w)])).
Proof. intros Hpage. rewrite fill_unfold, Hpage. reflexivity. Qed.

Lemma fill_stores (w : World) :
  response (self w) <> [] ->
  exists m,
    last (response (self w)) = Some m /\
    fill w =
    (Return tt,
     Build_World (filled (self w) m) (api_log w ++ [request (self w)])).
Proof.
  intros Hpage. rewrite fill_unfold.
  destruct (last (response (self w))) as [m|] eqn:Hlast.
  - exists m. split; reflexivity.
  - apply last_None in Hlast. contradiction.
Qed.

Lemma set_buffer_same (it : MessageIterator.t) :
  MessageIterator.set_buffer (MessageIterator._buffer it) it = it.
Proof. destruct it; reflexivity. Qed.

(** C6 (as amended): [fill] raises [StopIteration] exactly when the fetched
    page is empty and returns normally otherwise; when it stops, both
    cursors are as before and the buffer is the empty page just fetched,
    so an iterator entered with an empty buffer is left as it was. *)
Theorem C6_fill_stops_iff_page_empty (w : World) :
  (fst (fill w) = Raise StopIteration <-> response (self w) = []) /\
  (fst (fill w) = Return tt <-> response (self w) <> []) /\
  (response (self w) = [] ->
   MessageIterator.before (self (snd (fill w))) =
     MessageIterator.before (self w) /\
   MessageIterator.after (self (snd (fill w))) =
     MessageIterator.after (self w) /\
   MessageIterator._buffer (self (snd (fill w))) = [] /\
   (MessageIterator._buffer (self w) = [] -> self (snd (fill w)) = self w)).
Proof.
  destruct (response (self w)) as [|a l] eqn:Hpage.
  - rewrite (fill_stops w Hpage). cbn [fst snd self].
    repeat split; try congruence; try discriminate.
    intros Hempty. rewrite <- Hempty. apply set_buffer_same.
  - destruct (fill_stores w) as (m & _ & Hfill); [congruence|].
    rewrite Hfill. cbn [fst].
    repeat split; try congruence; try discriminate.
Qed.

Lemma C6_witness :
  fst (fill (start two_messages)) = Return tt /\
  fst (fill halfway) = Raise StopIteration /\
  MessageIterator.before (self (snd (fill halfway))) = Some 1 /\
  MessageIterator._buffer (self (snd (fill halfway))) = [].
Proof.
  split.
  - destruct (C6_fill_stops_iff_page_empty (start two_messages))
      as (_ & [_ Hstores] & _).
    apply Hstores. vm_compute. discriminate.
  - destruct (C6_fill_stops_iff_page_empty halfway)
      as ([_ Hstops] & _ & Hafter).
    split; [apply Hstops; reflexivity|].
    destruct Hafter as (Hbefore & _ & Hbuffer & _); [reflexivity|].
    split; [rewrite Hbefore; reflexivity | exact Hbuffer].
Defined.

(** C6 as first stated does not hold: [fill] can end the sequence and
    drop a message that was still buffered.  After one [next] on a channel
    of two messages the buffer holds one message; a direct [fill] then
    fetches an empty page, raises [StopIteration] and leaves the buffer
    empty. *)
Lemma C6_counterexample :
  ~ (forall w : World,
        fst (fill w) = Raise StopIteration ->
        MessageIterator.before (self (snd (fill w))) =
          MessageIterator.before (self w) /\
        MessageIterator.after (self (snd (fill w))) =
          MessageIterator.after (self w) /\
        MessageIterator._buffer (self (snd (fill w))) =
          MessageIterator._buffer (self w)).
Proof.
  intros Hclaim.
  destruct (Hclaim halfway) as (_ & _ & Hbuffer); [reflexivity|].
  vm_compute in Hbuffer. discriminate.
Qed.

(** ** The cursors after a fill *)

Lemma filled_after (it : MessageIterator.t) (m : Message.t) :
  MessageIterator.after (filled it m) = None.
Proof.
  unfold filled. destruct (Direction_eqb _ _); reflexivity.
Qed.

Lemma filled_fixed (it : MessageIterator.t) (m : Message.t) :
  MessageIterator.direction (filled it m) = MessageIterator.direction it /\
  MessageIterator.channel (filled it m) = MessageIterator.channel it /\
  MessageIterator.chunk_size (filled it m) = MessageIterator.chunk_size it.
Proof.
  unfold filled. destruct (Direction_eqb _ _); repeat split.
Qed.

Lemma filled_before_DOWN (it : MessageIterator.t) (m : Message.t) :
  MessageIterator.direction it = DOWN ->
  MessageIterator.before (filled it m) = None.
Proof.
  intros Hdown. unfold filled. rewrite Hdown. reflexivity.
Qed.

Lemma filled_before_UP (it : MessageIterator.t) (m : Message.t) :
  MessageIterator.direction it = UP ->
  MessageIterator.before (filled it m) = Some (Message.id m).
Proof.
  intros Hup. unfold filled. rewrite Hup. reflexivity.
Qed.

Lemma uncursored_request ch limit w :
  uncursored ch limit w ->
  request (self w) = channels_messages_list ch None None limit.
Proof.
  intros (_ & Hbefore & Hafter & Hch & Hlimit). unfold request.
  rewrite Hbefore, Hafter, Hch, Hlimit. reflexivity.
Qed.

Lemma fill_uncursored ch limit w :
  uncursored ch limit w ->
  uncursored ch limit (snd (fill w)) /\
  api_log (snd (fill w)) =
  api_log w ++ [channels_messages_list ch None None limit].
Proof.
  intros Hw. pose proof (uncursored_request _ _ _ Hw) as Hreq.
  destruct Hw as (Hdown & Hbefore & Hafter & Hch & Hlimit).
  rewrite fill_unfold.
  destruct (last (response (self w))) as [m|]; cbn [snd self api_log].
  - split; [|rewrite Hreq; reflexivity].
    destruct (filled_fixed (self w) m) as (Hd & Hc & Hl).
    unfold uncursored. cbn [self].
    rewrite Hd, Hc, Hl, filled_after, (filled_before_DOWN _ _ Hdown).
    repeat split; assumption.
  - split; [|rewrite Hreq; reflexivity].
    unfold uncursored. cbn [self]. repeat split; assumption.
Qed.

Lemma deliver_uncursored ch limit w :
  uncursored ch limit w ->
  uncursored ch limit (snd (deliver w)) /\
  api_log (snd (deliver w)) = api_log w.
Proof.
  intros Hw. unfold deliver.
  destruct (MessageIterator.bulk (self w)); [split; [exact Hw|reflexivity]|].
  destruct (last (MessageIterator._buffer (self w)));
    split; solve [exact Hw | reflexivity].
Qed.

Lemma invoke_uncursored ch limit m w :
  uncursored ch limit w ->
  uncursored ch limit (invoke m w) /\
  exists sent,
    api_log (invoke m w) = api_log w ++ sent /\
    Forall (fun c => c = channels_messages_list ch None None limit) sent.
Proof.
  intros Hw. destruct m; cbn [invoke].
  - destruct (fill_uncursored _ _ _ Hw) as [Hinv Hlog].
    split; [exact Hinv|]. eexists. split; [exact Hlog|].
    repeat constructor.
  - rewrite next_unfold.
    destruct (MessageIterator._buffer (self w)).
    + destruct (fill_uncursored _ _ _ Hw) as [Hinv Hlog].
      destruct (fill w) as [[[]|e] w1]; cbn [snd] in *.
      * destruct (deliver_uncursored _ _ _ Hinv) as [Hinv' Hlog'].
        split; [exact Hinv'|]. eexists.
        split; [rewrite Hlog', Hlog; reflexivity|]. repeat constructor.
      * split; [exact Hinv|]. eexists. split; [exact Hlog|].
        repeat constructor.
    + destruct (deliver_uncursored _ _ _ Hw) as [Hinv' Hlog'].
      split; [exact Hinv'|]. exists [].
      split; [rewrite Hlog', app_nil_r; reflexivity|]. constructor.
Qed.

Lemma invoke_all_uncursored ch limit ms :
  forall w,
    uncursored ch limit w ->
    exists sent,
      api_log (invoke_all ms w) = api_log w ++ sent /\
      Forall (fun c => c = channels_messages_list ch None None limit) sent.
Proof.
  induction ms as [|m ms IH]; intros w Hw.
  - exists []. split; [symmetry; apply app_nil_r|constructor].
  - destruct (invoke_uncursored _ _ m _ Hw) as (Hinv & sent1 & Hlog1 & Hall1).
    destruct (IH _ Hinv) as (sent2 & Hlog2 & Hall2).
    exists (sent1 ++ sent2). split.
    + cbn [invoke_all fold_left]. unfold invoke_all in Hlog2.
      rewrite Hlog2, Hlog1, app_assoc. reflexivity.
    + apply Forall_app. split; assumption.
Qed.

(** C10: after a fill that stored a page the [after] cursor is [None] in
    both directions.  Upwards [before] is the id of the page's last
    message; downwards [before] is [None] as well, and every request sent
    from then on, by whatever calls of [fill] and [next], carries no
    cursor. *)
Theorem C10_after_cursor_is_None_after_fill (w : World) :
  fst (fill w) = Return tt ->
  MessageIterator.after (self (snd (fill w))) = None /\
  (MessageIterator.direction (self w) = UP ->
   exists m,
     last (response (self w)) = Some m /\
     MessageIterator.before (self (snd (fill w))) = Some (Message.id m)) /\
  (MessageIterator.direction (self w) = DOWN ->
   MessageIterator.before (self (snd (fill w))) = None /\
   forall calls : list Method,
   exists sent,
     api_log (invoke_all calls (snd (fill w))) =
       api_log (snd (fill w)) ++ sent /\
     Forall (fun c => c = channels_messages_list
                            (MessageIterator.channel (self w)) None None
                            (MessageIterator.chunk_size (self w))) sent).
Proof.
  rewrite fill_unfold.
  destruct (last (response (self w))) as [m|] eqn:Hlast;
    cbn [fst snd self]; [intros _|discriminate].
  split; [apply filled_after|]. split.
  - intros Hup. exists m. split; [reflexivity|].
    apply filled_before_UP, Hup.
  - intros Hdown. split; [apply filled_before_DOWN, Hdown|].
    intros calls. apply invoke_all_uncursored.
    destruct (filled_fixed (self w) m) as (Hd & Hc & Hl).
    unfold uncursored. cbn [self].
    rewrite Hd, Hc, Hl, filled_after, (filled_before_DOWN _ _ Hdown).
    repeat split. exact Hdown.
Qed.

Lemma C10_witness :
  MessageIterator.after (self (snd (fill (start downwards)))) = None /\
  MessageIterator.before (self (snd (fill (start downwards)))) = None /\
  api_log (invoke_all [call_next; call_fill] (snd (fill (start downwards))))
  = [ channels_messages_list 5 None (Some 1) 100;
      channels_messages_list 5 None None 100 ].
Proof.
  destruct (C10_after_cursor_is_None_after_fill (start downwards))
    as (Hafter & _ & Hdown); [reflexivity|].
  destruct Hdown as (Hbefore & _); [reflexivity|].
  split; [exact Hafter|]. split; [exact Hbefore|]. reflexivity.
Defined.

(** C2: a downward fill reverses the page but does not move the [after]
    cursor.  From [after = m1] over a history of 101 messages the first
    fill buffers [m2 .. m101], oldest first, and leaves both cursors
    unset; the next request therefore carries no cursor and its answer is
    the very same page again. *)
Theorem C2_down_fill_leaves_after_unset :
  let w1 := snd (fill (start downwards)) in
  fst (fill (start downwards)) = Return tt /\
  MessageIterator._buffer (self w1) = numbered 2 100 /\
  last (MessageIterator._buffer (self w1)) = Some (Message.Build 101) /\
  MessageIterator.after (self w1) = None /\
  MessageIterator.after (self w1) <> Some 101 /\
  request (self w1) = channels_messages_list 5 None None 100 /\
  response (self w1) = response downwards.
Proof.
  vm_compute. repeat split; discriminate.
Qed.

(** ** MessageIterator.__init__ *)

Lemma MessageIterator__init__unfold client ch direction bulk before after
    limit :
  MessageIterator__init__ client ch direction bulk before after limit =
  if Direction_eqb direction DOWN && negb (truthy before)
     && negb (truthy after)
  then Raise (Exception
                "Must specify either before or after for downward seeking")
  else Return (MessageIterator.Build client ch direction bulk before after
                 limit None []).
Proof.
  unfold MessageIterator__init__, any. cbn [existsb].
  destruct direction, (truthy before), (truthy after); reflexivity.
Qed.

(** C5: a downward iterator built with [after=0] and no [before] is
    refused, although a cursor was given; construction without any cursor
    is refused as well, and upward construction always succeeds. *)
Theorem C5_down_with_zero_cursor_is_refused client ch bulk limit :
  MessageIterator__init__ client ch DOWN bulk None (Some 0) limit =
    Raise (Exception
             "Must specify either before or after for downward seeking") /\
  MessageIterator__init__ client ch DOWN bulk None None limit =
    Raise (Exception
             "Must specify either before or after for downward seeking") /\
  forall before after,
    MessageIterator__init__ client ch UP bulk before after limit =
    Return (MessageIterator.Build client ch UP bulk before after limit
              None []).
Proof.
  repeat split. intros before after.
  rewrite MessageIterator__init__unfold. reflexivity.
Qed.

(** ** Channel.delete_messages *)

Lemma for_each_api_call {A} (fails : ApiFailures) (f : A -> ApiCall)
    (xs : list A) :
  forall log,
    for_each xs (fun x => api_call fails (f x)) log =
    send_all fails (map f xs) log.
Proof.
  induction xs as [|x rest IH]; intros log; [reflexivity|].
  cbn [for_each map send_all]. unfold mbind, M_bind, bind.
  unfold api_call at 1. destruct (fails log (f x)); [reflexivity|apply IH].
Qed.

Lemma send_all_reliable (fails : ApiFailures) (calls : list ApiCall) :
  (forall log c, fails log c = None) ->
  forall log, send_all fails calls log = (Return tt, log ++ calls).
Proof.
  intros Hok. induction calls as [|c rest IH]; intros log; cbn [send_all].
  - rewrite app_nil_r. reflexivity.
  - rewrite Hok, IH, <- app_assoc. reflexivity.
Qed.

(** On Python 2, where [map] returns a list. *)
Lemma delete_messages_python2 (fails : ApiFailures) (chan : Channel.t)
    (messages : list MessageRef) (log : list ApiCall) :
  delete_messages Python2 fails chan messages log =
  let ids := map to_snowflake messages in
  if (length messages =? 0)%nat then (Return tt, log)
  else if (length messages <=? 2)%nat then
    send_all fails (map (channels_messages_delete (Channel.id chan)) ids) log
  else
    send_all fails
      (map (channels_messages_delete_bulk (Channel.id chan)) (chunks ids 100))
      log.
Proof.
  unfold delete_messages. cbn [py_map py_not py_len py_items].
  rewrite length_map.
  destruct (length messages =? 0)%nat; [reflexivity|].
  unfold mbind, M_bind, bind, ret.
  destruct (length messages <=? 2)%nat.
  - unfold delete_message. cbn [to_snowflake].
    apply (for_each_api_call fails
             (fun msg => channels_messages_delete (Channel.id chan) msg)).
  - apply for_each_api_call.
Qed.

(** On Python 3, where [map] returns a map object: the object is truthy
    and [len] of it raises before any call is made. *)
Lemma delete_messages_python3 (fails : ApiFailures) (chan : Channel.t)
    (messages : list MessageRef) (log : list ApiCall) :
  delete_messages Python3 fails chan messages log = (Raise TypeError, log).
Proof. reflexivity. Qed.

Lemma chunks_from_cons {A} k (x : A) l n :
  chunks_from (S k) (x :: l) n =
  take n (x :: l) :: chunks_from k (drop n (x :: l)) n.
Proof. reflexivity. Qed.

Lemma chunks_from_nil {A} k n : chunks_from k (@nil A) n = [].
Proof. destruct k; reflexivity. Qed.

Lemma concat_chunks_from {A} n k :
  (0 < n)%nat ->
  forall l : list A, (length l <= k)%nat -> concat (chunks_from k l n) = l.
Proof.
  intros Hn. induction k as [|k IH]; intros l Hlen.
  - destruct l; [reflexivity|cbn in Hlen; lia].
  - destruct l as [|x l]; [reflexivity|].
    rewrite chunks_from_cons. cbn [concat]. rewrite IH.
    + apply take_drop.
    + rewrite length_drop. cbn [length] in *. lia.
Qed.

Lemma Forall_chunks_from {A} n k :
  (0 < n)%nat ->
  forall l : list A,
    Forall (fun c => (1 <= length c <= n)%nat) (chunks_from k l n).
Proof.
  intros Hn. induction k as [|k IH]; intros l; [constructor|].
  destruct l as [|x l]; [constructor|].
  rewrite chunks_from_cons. constructor; [|apply IH].
  rewrite length_take. cbn [length]. lia.
Qed.

Lemma chunks_150 {A} (l : list A) :
  length l = 150%nat -> chunks l 100 = [take 100 l; drop 100 l].
Proof.
  intros Hlen. unfold chunks. rewrite Hlen.
  destruct l as [|x l]; [discriminate|].
  rewrite chunks_from_cons.
  destruct (drop 100 (x :: l)) as [|y rest] eqn:Hdrop.
  - apply (f_equal length) in Hdrop. rewrite length_drop, Hlen in Hdrop.
    discriminate.
  - rewrite chunks_from_cons, <- Hdrop.
    assert (Hrest : length (drop 100 (x :: l)) = 50%nat)
      by (rewrite length_drop, Hlen; reflexivity).
    rewrite (take_ge (drop 100 (x :: l)) 100) by lia.
    rewrite (drop_ge (drop 100 (x :: l)) 100) by lia.
    rewrite chunks_from_nil. reflexivity.
Qed.

(** C8: on Python 3 [delete_messages] raises [TypeError] for every list of
    messages, before any call is made.  On Python 2, with a client whose
    requests succeed, one or two messages are deleted by that many
    single-delete calls and nothing else; more than two are cut into
    consecutive chunks of at most 100 ids, each sent in one bulk-delete
    call, so 150 messages make two bulk calls, of 100 and of 50 ids. *)
Theorem C8_delete_messages_by_runtime (fails : ApiFailures)
    (chan : Channel.t) (messages : list MessageRef) (log : list ApiCall) :
  let ids := map to_snowflake messages in
  delete_messages Python3 fails chan messages log = (Raise TypeError, log) /\
  ((forall l c, fails l c = None) ->
   ((1 <= length messages <= 2)%nat ->
    delete_messages Python2 fails chan messages log =
    (Return tt,
     log ++ map (channels_messages_delete (Channel.id chan)) ids)) /\
   ((2 < length messages)%nat ->
    delete_messages Python2 fails chan messages log =
    (Return tt,
     log ++ map (channels_messages_delete_bulk (Channel.id chan))
                (chunks ids 100)) /\
    concat (chunks ids 100) = ids /\
    Forall (fun c => (1 <= length c <= 100)%nat) (chunks ids 100)) /\
   (length messages = 150%nat ->
    delete_messages Python2 fails chan messages log =
    (Return tt,
     log ++ [ channels_messages_delete_bulk (Channel.id chan) (take 100 ids);
              channels_messages_delete_bulk (Channel.id chan) (drop 100 ids) ])
    /\ length (take 100 ids) = 100%nat /\ length (drop 100 ids) = 50%nat)).
Proof.
  intros ids. split; [apply delete_messages_python3|]. intros Hok.
  assert (Hids : length ids = length messages) by apply length_map.
  rewrite delete_messages_python2. fold ids. cbv zeta.
  assert (Hbulk : (2 < length messages)%nat ->
                  (if (length messages =? 0)%nat then (Return tt, log)
                   else if (length messages <=? 2)%nat
                   then send_all fails
                          (map (channels_messages_delete (Channel.id chan))
                             ids) log
                   else send_all fails
                          (map (channels_messages_delete_bulk
                                  (Channel.id chan)) (chunks ids 100)) log) =
                  (Return tt,
                   log ++ map (channels_messages_delete_bulk (Channel.id chan))
                              (chunks ids 100))).
  { intros Hlen.
    destruct (Nat.eqb_spec (length messages) 0) as [|_]; [lia|].
    destruct (Nat.leb_spec (length messages) 2) as [|_]; [lia|].
    apply send_all_reliable, Hok. }
  split; [|split].
  - intros Hlen.
    destruct (Nat.eqb_spec (length messages) 0) as [|_]; [lia|].
    destruct (Nat.leb_spec (length messages) 2) as [_|]; [|lia].
    apply send_all_reliable, Hok.
  - intros Hlen. split; [exact (Hbulk Hlen)|]. split.
    + apply concat_chunks_from; lia.
    + apply Forall_chunks_from. lia.
  - intros Hlen. rewrite Hbulk by lia.
    rewrite (chunks_150 ids) by lia.
    rewrite length_take, length_drop, Hids, Hlen. repeat split.
Qed.

Lemma C8_witness :
  delete_messages Python3 reliable sample_channel [by_id 11] []
  = (Raise TypeError, []) /\
  delete_messages Python2 reliable sample_channel
    [by_id 11; by_message (Message.Build 12)] []
  = (Return tt, [channels_messages_delete 1 11; channels_messages_delete 1 12])
  /\ delete_messages Python2 reliable sample_channel
       (map by_id (seq_ids 150)) []
     = (Return tt,
        [ channels_messages_delete_bulk 1 (take 100 (seq_ids 150));
          channels_messages_delete_bulk 1 (drop 100 (seq_ids 150)) ]).
Proof.
  split; [|split].
  - apply (C8_delete_messages_by_runtime reliable sample_channel
             [by_id 11] []).
  - destruct (C8_delete_messages_by_runtime reliable sample_channel
                [by_id 11; by_message (Message.Build 12)] [])
      as [_ Hpy2].
    destruct Hpy2 as (Hfew & _); [reflexivity|].
    apply Hfew. cbn. lia.
  - destruct (C8_delete_messages_by_runtime reliable sample_channel
                (map by_id (seq_ids 150)) []) as [_ Hpy2].
    destruct Hpy2 as (_ & _ & H150); [reflexivity|].
    destruct H150 as [Hcalls _]; [reflexivity|].
    rewrite Hcalls. reflexivity.
Defined.

(** ** Runs of [next] *)

Lemma next_drained (w : World) :
  MessageIterator._buffer (self w) = [] ->
  next w =
  match fill w with
  | (Return _, w1) => deliver w1
  | (Raise e, w1) => (Raise e, w1)
  end.
Proof. intros Hbuf. rewrite next_unfold, Hbuf. reflexivity. Qed.

Lemma next_buffered (w : World) :
  MessageIterator._buffer (self w) <> [] -> next w = deliver w.
Proof.
  intros Hbuf. rewrite next_unfold.
  destruct (MessageIterator._buffer (self w)); [contradiction|reflexivity].
Qed.

Lemma pull_app (a b : nat) :
  forall w,
    pull (a + b) w =
    match pull a w with
    | (ys, None, w') => let '(ys', e, w'') := pull b w' in (ys ++ ys', e, w'')
    | (ys, Some e, w') => (ys, Some e, w')
    end.
Proof.
  induction a as [|a IH]; intros w.
  - cbn. destruct (pull b w) as [[ys e] w']. reflexivity.
  - cbn [Nat.add pull]. destruct (next w) as [[y|e] w1]; [|reflexivity].
    rewrite IH. destruct (pull a w1) as [[ys [e|]] w2]; [reflexivity|].
    destruct (pull b w2) as [[ys' e'] w3]. reflexivity.
Qed.

(** In per-message mode a buffer is handed out from its tail. *)
Lemma pull_buffer (p : list Message.t) :
  forall w,
    MessageIterator.bulk (self w) = false ->
    MessageIterator._buffer (self w) = p ->
    pull (length p) w =
    (map Single (reverse p), None,
     Build_World (MessageIterator.set_buffer [] (self w)) (api_log w)).
Proof.
  induction p as [|x q IH] using rev_ind; intros [it log] Hbulk Hbuf;
    cbn [self api_log] in *.
  - cbn. rewrite <- Hbuf, set_buffer_same. reflexivity.
  - rewrite length_app, Nat.add_1_r. cbn [pull].
    rewrite next_buffered
      by (cbn [self]; rewrite Hbuf; destruct q; discriminate).
    unfold deliver. cbn [self api_log].
    rewrite Hbulk, Hbuf, last_snoc, removelast_last.
    rewrite IH; [|exact Hbulk|reflexivity]. cbn [self api_log].
    rewrite reverse_snoc. reflexivity.
Qed.

Lemma fill_as_single (it : MessageIterator.t) (log : list ApiCall) :
  fill (Build_World (as_single it) log) =
  (fst (fill (Build_World it log)),
   Build_World (as_single (self (snd (fill (Build_World it log)))))
               (api_log (snd (fill (Build_World it log))))).
Proof.
  rewrite !fill_unfold. cbn [self api_log].
  change (response (as_single it)) with (response it).
  destruct (last (response it)) as [m|]; [|reflexivity].
  cbn [fst snd self api_log]. unfold filled.
  cbn [as_single MessageIterator.direction].
  destruct (Direction_eqb (MessageIterator.direction it) UP); reflexivity.
Qed.

Lemma filled_buffer (it : MessageIterator.t) (m : Message.t) :
  last (response it) = Some m ->
  MessageIterator._buffer (filled it m) =
    (if Direction_eqb (MessageIterator.direction it) UP then response it
     else reverse (response it)) /\
  MessageIterator._buffer (filled it m) <> [].
Proof.
  intros Hlast.
  assert (Hpage : response it <> [])
    by (intros Hnil; rewrite Hnil in Hlast; discriminate).
  unfold filled.
  destruct (Direction_eqb (MessageIterator.direction it) UP);
    cbn [MessageIterator._buffer]; (split; [reflexivity|]); [exact Hpage|].
  intros Hnil. apply Hpage. rewrite <- (reverse_involutive (response it)).
  rewrite Hnil. reflexivity.
Qed.

(** One batch of the bulk iterator is matched by as many single pulls of
    its twin. *)
Lemma twins_next (wb ws : World) :
  twins wb ws ->
  match next wb with
  | (Return y, wb') =>
      exists p ws',
        y = Batch p /\ p <> [] /\
        pull (length p) ws = (map Single (reverse p), None, ws') /\
        twins wb' ws'
  | (Raise e, wb') =>
      exists ws', next ws = (Raise e, ws') /\ twins wb' ws'
  end.
Proof.
  destruct wb as [it log], ws as [it' log'].
  intros (Hbulk & Hbuf & Hself & Hlog). cbn [self api_log] in *. subst.
  rewrite !next_drained by (cbn [self as_single MessageIterator._buffer];
                            exact Hbuf).
  rewrite fill_as_single, (fill_unfold (Build_World it log)).
  cbn [self api_log].
  destruct (last (response it)) as [m|] eqn:Hlast; cbn [fst snd self api_log].
  - destruct (filled_buffer it m Hlast) as [_ Hne].
    assert (Hb : MessageIterator.bulk (filled it m) = true).
    { unfold filled. destruct (Direction_eqb _ _); exact Hbulk. }
    unfold deliver at 1. cbn [self api_log]. rewrite Hb.
    eexists _, _. split; [reflexivity|]. split; [exact Hne|]. split.
    + destruct (MessageIterator._buffer (filled it m)) as [|x q] eqn:Hq;
        [contradiction|].
      change (length (x :: q)) with (S (length q)). cbn [pull].
      rewrite next_drained by (cbn [self as_single MessageIterator._buffer];
                               exact Hbuf).
      rewrite fill_as_single, (fill_unfold (Build_World it log)).
      cbn [self api_log]. rewrite Hlast. cbn [fst snd self api_log].
      set (w1 := Build_World (as_single (filled it m))
                   (log ++ [request it])).
      assert (Hpull : pull (S (length q)) w1 =
                      (map Single (reverse (x :: q)), None,
                       Build_World (MessageIterator.set_buffer [] (self w1))
                                   (api_log w1))).
      { apply (pull_buffer (x :: q) w1); [reflexivity|].
        cbn [w1 self as_single MessageIterator._buffer]. exact Hq. }
      cbn [pull] in Hpull.
      rewrite (next_buffered w1) in Hpull
        by (cbn [w1 self as_single MessageIterator._buffer];
            rewrite Hq; discriminate).
      exact Hpull.
    + unfold twins. cbn [self api_log].
      split; [exact Hb|repeat split].
  - eexists. split; [reflexivity|].
    unfold twins. cbn [self api_log].
    split; [exact Hbulk|repeat split].
Qed.

Lemma twins_pull (n : nat) :
  forall wb ws,
    twins wb ws ->
    forall batches stop wb',
      pull n wb = (batches, stop, wb') ->
      exists pages ws',
        batches = map Batch pages /\
        Forall (fun p => p <> []) pages /\
        pull (length (concat pages) + closing stop) ws =
          (map Single (concat (map reverse pages)), stop, ws') /\
        twins wb' ws'.
Proof.
  induction n as [|n IH]; intros wb ws Htw batches stop wb' Hpull.
  - cbn in Hpull. injection Hpull as <- <- <-.
    exists [], ws. repeat split; [constructor|apply Htw..].
  - cbn [pull] in Hpull. pose proof (twins_next wb ws Htw) as Hstep.
    destruct (next wb) as [[y|e] wb1].
    + destruct Hstep as (p & ws1 & -> & Hne & Hp & Htw1).
      destruct (pull n wb1) as [[bs st] wb2] eqn:Hrest.
      injection Hpull as <- <- <-.
      destruct (IH wb1 ws1 Htw1 bs st wb2 Hrest)
        as (pages & ws2 & -> & Hall & Hsingle & Htw2).
      exists (p :: pages), ws2.
      split; [reflexivity|]. split; [constructor; assumption|].
      split; [|exact Htw2].
      cbn [concat map]. rewrite length_app, <- Nat.add_assoc, pull_app, Hp.
      rewrite Hsingle, map_app. reflexivity.
    + destruct Hstep as (ws1 & Hnext & Htw1).
      injection Hpull as <- <- <-.
      exists [], ws1. split; [reflexivity|]. split; [constructor|].
      split; [|exact Htw1]. cbn. rewrite Hnext. reflexivity.
Qed.

Lemma fill_bulk (w : World) :
  MessageIterator.bulk (self (snd (fill w))) = MessageIterator.bulk (self w).
Proof.
  rewrite fill_unfold.
  destruct (last (response (self w))) as [m|]; [|reflexivity].
  cbn [snd self]. unfold filled. destruct (Direction_eqb _ _); reflexivity.
Qed.

(** C7: over the same client and with the same direction, cursors and
    chunk size, a bulk iterator hands out each stored page whole, as one
    batch, and the per-message iterator hands out the messages of the same
    pages one by one: whatever the number of calls, the batches of the bulk
    run hold exactly as many messages as the per-message run yields over
    the same requests, and both runs end together. *)
Theorem C7_bulk_batches_cover_single_messages
    (client : Client.t) (ch : snowflake) (direction : Direction)
    (before after : option snowflake) (limit : Z)
    (itb its : MessageIterator.t) :
  MessageIterator__init__ client ch direction true before after limit =
    Return itb ->
  MessageIterator__init__ client ch direction false before after limit =
    Return its ->
  (forall w y w',
      MessageIterator.bulk (self w) = true ->
      MessageIterator._buffer (self w) = [] ->
      next w = (Return y, w') ->
      y = Batch (MessageIterator._buffer (self (snd (fill w)))) /\
      MessageIterator._buffer (self w') = []) /\
  forall n batches stop wb,
    pull n (start itb) = (batches, stop, wb) ->
    exists pages ws,
      batches = map Batch pages /\
      Forall (fun p => p <> []) pages /\
      pull (length (concat pages) + closing stop) (start its) =
        (map Single (concat (map reverse pages)), stop, ws) /\
      length (map Single (concat (map reverse pages))) =
        length (concat pages) /\
      api_log ws = api_log wb.
Proof.
  intros Hb Hs. split.
  - intros w y w' Hbulk Hbuf Hnext.
    rewrite (next_drained w Hbuf) in Hnext.
    pose proof (fill_bulk w) as Hbulk1. rewrite Hbulk in Hbulk1.
    destruct (fill w) as [[[]|e] w1]; [|discriminate].
    unfold deliver in Hnext. cbn [snd] in *.
    rewrite Hbulk1 in Hnext. injection Hnext as <- <-.
    split; reflexivity.
  - intros n batches stop wb Hpull.
    rewrite MessageIterator__init__unfold in Hb, Hs.
    destruct (_ && _); [discriminate|].
    injection Hb as <-. injection Hs as <-.
    match type of Hpull with
    | pull n (start ?it) = _ =>
        assert (Htwins : twins (start it) (start (as_single it)))
          by (repeat split)
    end.
    destruct (twins_pull n _ _ Htwins batches stop wb Hpull)
      as (pages & ws & Hbatches & Hall & Hsingle & Htw).
    exists pages, ws. repeat split; try assumption.
    + rewrite length_map, !length_concat. f_equal.
      rewrite <- !list_fmap_compose. apply list_fmap_ext.
      intros i p _. apply length_reverse.
    + apply Htw.
Qed.

Lemma C7_witness :
  exists pages ws,
    fst (pull 4 (start bulk_five)) = (map Batch pages, Some StopIteration) /\
    pull (length (concat pages) + 1) (start single_five) =
      (map Single (concat (map reverse pages)), Some StopIteration, ws) /\
    length (concat pages) = 5%nat.
Proof.
  destruct (C7_bulk_batches_cover_single_messages
              (remote (numbered 1 5)) 5 UP None None 2 bulk_five single_five
              eq_refl eq_refl) as [_ Hruns].
  assert (Hbulk : pull 4 (start bulk_five) =
                  ([ Batch (reverse (numbered 4 2));
                     Batch (reverse (numbered 2 2));
                     Batch (numbered 1 1) ],
                   Some StopIteration, snd (pull 4 (start bulk_five))))
    by (vm_compute; reflexivity).
  destruct (Hruns 4%nat _ _ _ Hbulk)
    as (pages & ws & Hbatches & _ & Hsingle & Hcount & _).
  exists pages, ws. split; [|split].
  - rewrite Hbulk, <- Hbatches. reflexivity.
  - exact Hsingle.
  - rewrite <- Hcount, length_map.
    destruct pages as [|p1 [|p2 [|p3 [|p4 rest]]]]; try discriminate.
    injection Hbatches as <- <- <-. reflexivity.
Defined.

(** ** Upward pagination over an increasing history *)

Lemma increasing_cons (a : Message.t) (l : list Message.t) :
  increasing (a :: l) = true ->
  Forall (fun x => Message.id a < Message.id x) l /\ increasing l = true.
Proof.
  revert a. induction l as [|b l IH]; intros a Hinc.
  - split; [constructor|reflexivity].
  - cbn [increasing] in Hinc. apply andb_prop in Hinc as [Hab Hrest].
    apply Z.ltb_lt in Hab. split; [|exact Hrest].
    destruct (IH b Hrest) as [Hall _]. constructor; [exact Hab|].
    eapply Forall_impl; [exact Hall|]. cbn. intros x Hx. lia.
Qed.

Lemma filter_none_older (a : snowflake) (l : list Message.t) :
  Forall (fun x => a < Message.id x) l ->
  List.filter (fun x => Message.id x <? a) l = [].
Proof.
  induction 1 as [|x l Hx _ IH]; [reflexivity|].
  cbn [List.filter]. rewrite IH.
  destruct (Z.ltb_spec (Message.id x) a); [lia|reflexivity].
Qed.

(** The messages older than the [k]-th one are the first [k]. *)
Lemma filter_older (h : list Message.t) :
  increasing h = true ->
  forall k m,
    h !! k = Some m ->
    List.filter (fun x => Message.id x <? Message.id m) h = take k h.
Proof.
  induction h as [|a l IH]; intros Hinc k m Hk; [discriminate|].
  destruct (increasing_cons a l Hinc) as [Hall Hl].
  destruct k as [|k]; cbn in Hk.
  - injection Hk as <-. cbn [List.filter take].
    rewrite Z.ltb_irrefl. apply filter_none_older.
    eapply Forall_impl; [exact Hall|]. cbn. intros x Hx. lia.
  - assert (Ham : Message.id a < Message.id m).
    { rewrite Forall_forall in Hall. apply Hall.
      eapply list_elem_of_lookup_2. exact Hk. }
    cbn [List.filter take].
    destruct (Z.ltb_spec (Message.id a) (Message.id m)); [|lia].
    rewrite (IH Hl k m Hk). reflexivity.
Qed.

Lemma listMessages_newest (h : list Message.t) (limit : Z) :
  listMessages h None None limit =
  reverse (drop (length h - Z.to_nat limit) h).
Proof. reflexivity. Qed.

Lemma listMessages_before (h : list Message.t) (limit : Z) k m :
  increasing h = true ->
  h !! k = Some m ->
  listMessages h (Some (Message.id m)) None limit =
  reverse (drop (k - Z.to_nat limit) (take k h)).
Proof.
  intros Hinc Hk. unfold listMessages.
  rewrite (filter_older h Hinc k m Hk), length_take_le; [reflexivity|].
  apply lookup_lt_Some in Hk. lia.
Qed.

Lemma last_reverse_drop (h : list Message.t) k :
  last (reverse (drop k h)) = h !! k.
Proof.
  rewrite last_reverse, head_lookup, lookup_drop, Nat.add_0_r. reflexivity.
Qed.

(** One call of [next] of an upward bulk iterator with an empty buffer. *)
Lemma next_up_bulk client ch cursor limit log page m :
  let it := MessageIterator.Build client ch UP true cursor None limit
              None [] in
  response it = page ->
  last page = Some m ->
  next (Build_World it log) =
  (Return (Batch page),
   Build_World
     (MessageIterator.Build client ch UP true (Some (Message.id m)) None
        limit None [])
     (log ++ [channels_messages_list ch cursor None limit])).
Proof.
  intros it Hpage Hlast.
  rewrite next_drained by reflexivity. rewrite fill_unfold.
  cbn [self api_log]. rewrite Hpage, Hlast.
  unfold deliver, filled. cbn. rewrite Hpage. reflexivity.
Qed.

Lemma next_up_stop client ch cursor limit log :
  let it := MessageIterator.Build client ch UP true cursor None limit
              None [] in
  response it = [] ->
  next (Build_World it log) =
  (Raise StopIteration,
   Build_World it (log ++ [channels_messages_list ch cursor None limit])).
Proof.
  intros it Hpage.
  rewrite next_drained by reflexivity. rewrite fill_unfold.
  cbn [self api_log]. rewrite Hpage. reflexivity.
Qed.

Lemma response_remote h ch direction bulk before after limit kept buffer :
  response (MessageIterator.Build (remote h) ch direction bulk before after
              limit kept buffer) =
  listMessages h before after limit.
Proof. reflexivity. Qed.

Lemma up_bulk_250 (h : list Message.t) (ch : snowflake) :
  length h = 250%nat ->
  increasing h = true ->
  exists w,
    pull 4 (start (MessageIterator.Build (remote h) ch UP true None None 100
                     None [])) =
    ([ Batch (reverse (drop 150 h));
       Batch (reverse (take 100 (drop 50 h)));
       Batch (reverse (take 50 h)) ],
     Some StopIteration, w).
Proof.
  intros Hlen Hinc.
  destruct (lookup_lt_is_Some_2 h 150) as [a Ha]; [lia|].
  destruct (lookup_lt_is_Some_2 h 50) as [b Hb]; [lia|].
  destruct (lookup_lt_is_Some_2 h 0) as [c Hc]; [lia|].
  eexists. unfold start. cbn [pull].
  rewrite (next_up_bulk (remote h) ch None 100 []
             (reverse (drop 150 h)) a).
  2:{ rewrite response_remote, listMessages_newest, Hlen. reflexivity. }
  2:{ rewrite last_reverse_drop. exact Ha. }
  rewrite (next_up_bulk (remote h) ch (Some (Message.id a)) 100 _
             (reverse (take 100 (drop 50 h))) b).
  2:{ rewrite response_remote, (listMessages_before h 100 150 a Hinc Ha).
      rewrite take_drop_commute. reflexivity. }
  2:{ rewrite take_drop_commute, last_reverse_drop, lookup_take_lt by lia.
      exact Hb. }
  rewrite (next_up_bulk (remote h) ch (Some (Message.id b)) 100 _
             (reverse (take 50 h)) c).
  2:{ rewrite response_remote, (listMessages_before h 100 50 b Hinc Hb).
      reflexivity. }
  2:{ rewrite <- (drop_0 (take 50 h)), last_reverse_drop,
        lookup_take_lt by lia.
      exact Hc. }
  rewrite (next_up_stop (remote h) ch (Some (Message.id c)) 100).
  2:{ rewrite response_remote, (listMessages_before h 100 0 c Hinc Hc).
      reflexivity. }
  reflexivity.
Qed.

(** C3: an upward fill that stores a page leaves [after] unset and sets
    [before] to the id of the page's last, oldest, message.  Over a history
    [m1 .. m250] an upward iterator with a chunk size of 100 therefore
    hands out the pages [m250 .. m151], [m150 .. m51] and [m50 .. m1] and
    raises [StopIteration] at the fourth call; in per-message mode the
    same three pages are handed out message by message, each from its
    tail, and call 251 ends the sequence. *)
Theorem C3_up_pages_of_250 :
  (forall w : World,
      MessageIterator.direction (self w) = UP ->
      response (self w) <> [] ->
      exists m,
        last (response (self w)) = Some m /\
        fst (fill w) = Return tt /\
        MessageIterator.before (self (snd (fill w))) = Some (Message.id m) /\
        MessageIterator.after (self (snd (fill w))) = None /\
        MessageIterator._buffer (self (snd (fill w))) = response (self w)) /\
  (forall (h : list Message.t) (ch : snowflake),
      length h = 250%nat ->
      increasing h = true ->
      exists itb its,
        MessageIterator__init__ (remote h) ch UP true None None 100 =
          Return itb /\
        MessageIterator__init__ (remote h) ch UP false None None 100 =
          Return its /\
        fst (pull 4 (start itb)) =
          ([ Batch (reverse (drop 150 h));
             Batch (reverse (take 100 (drop 50 h)));
             Batch (reverse (take 50 h)) ],
           Some StopIteration) /\
        fst (pull 251 (start its)) =
          (map Single (drop 150 h ++ take 100 (drop 50 h) ++ take 50 h),
           Some StopIteration)).
Proof.
  split.
  - intros w Hup Hpage.
    destruct (fill_stores w Hpage) as (m & Hlast & Hfill).
    exists m. rewrite Hfill. cbn [fst snd self].
    unfold filled. rewrite Hup. cbn. repeat split. exact Hlast.
  - intros h ch Hlen Hinc.
    destruct (up_bulk_250 h ch Hlen Hinc) as [wb Hbulk].
    eexists _, _. split; [reflexivity|]. split; [reflexivity|].
    split; [rewrite Hbulk; reflexivity|].
    match type of Hbulk with
    | pull 4 (start ?it) = _ =>
        assert (Htwins : twins (start it) (start (as_single it)))
          by (repeat split)
    end.
    destruct (twins_pull 4 _ _ Htwins _ _ _ Hbulk)
      as (pages & ws & Hbatches & _ & Hsingle & _).
    destruct pages as [|p1 [|p2 [|p3 [|p4 rest]]]]; try discriminate.
    injection Hbatches as <- <- <-.
    cbn [concat map closing] in Hsingle.
    rewrite !reverse_involutive, (app_nil_r (take 50 h)) in Hsingle.
    rewrite !length_app, !length_reverse, length_drop, !length_take,
      length_drop, Hlen in Hsingle.
    exact (f_equal fst Hsingle).
Qed.

Lemma C3_witness :
  MessageIterator.before (self (snd (fill (start bulk_five)))) = Some 4 /\
  fst (pull 4 (start (MessageIterator.Build (remote (numbered 1 250)) 5 UP
                        true None None 100 None []))) =
  ([ Batch (reverse (numbered 151 100));
     Batch (reverse (numbered 51 100));
     Batch (reverse (numbered 1 50)) ],
   Some StopIteration).
Proof.
  destruct C3_up_pages_of_250 as [Hfill Hrun]. split.
  - destruct (Hfill (start bulk_five)) as (m & Hlast & _ & Hbefore & _);
      [reflexivity | vm_compute; discriminate |].
    rewrite Hbefore. vm_compute in Hlast. injection Hlast as <-.
    reflexivity.
  - destruct (Hrun (numbered 1 250) 5) as (itb & its & Hb & _ & Hbulk & _);
      [reflexivity | reflexivity |].
    rewrite MessageIterator__init__unfold in Hb.
    cbn [Direction_eqb andb] in Hb. injection Hb as <-.
    rewrite Hbulk. vm_compute. reflexivity.
Defined.

(** * Further properties of the module *)

(** ** Permission resolution: which overwrites count *)

Lemma spec_targets_false user member ow :
  skipped user member ow <-> spec_targets user member ow = false.
Proof.
  unfold skipped, spec_targets. rewrite orb_false_iff, Z.eqb_neq.
  reflexivity.
Qed.

Lemma spec_resolve_filter user member ows :
  forall base,
    spec_resolve user member ows base =
    fold_left spec_merge (List.filter (spec_targets user member) ows) base.
Proof.
  induction ows as [|ow rest IH]; intros base; [reflexivity|].
  unfold spec_resolve in *. cbn [fold_left List.filter].
  destruct (spec_targets user member ow); cbn [fold_left]; apply IH.
Qed.

Lemma filter_twice {A} (f : A -> bool) (l : list A) :
  List.filter f (List.filter f l) = List.filter f l.
Proof.
  induction l as [|x l IH]; [reflexivity|]. cbn [List.filter].
  destruct (f x) eqn:Hx; [|exact IH].
  cbn [List.filter]. rewrite Hx, IH. reflexivity.
Qed.

(** The result depends on the overwrites that target the user only: the
    others can be removed without changing it, and when none targets the
    user the guild's base value is the answer. *)
Theorem get_permissions_ignores_other_targets
    (ADMINISTRATOR : PermissionValue) (state : State.t) (chan : Channel.t)
    (user : User.t) (guild : Guild.t) (member : GuildMember.t)
    (base : PermissionValue) :
  truthy (Channel.guild_id chan) = true ->
  Channel_guild state chan = Some guild ->
  Guild.get_permissions guild user = Return base ->
  Guild.members guild !! User.id user = Some member ->
  get_permissions ADMINISTRATOR state chan user =
    Return (fold_left spec_merge
              (List.filter (spec_targets user member)
                 (Channel.overwrites chan)) base) /\
  get_permissions ADMINISTRATOR state chan user =
    get_permissions ADMINISTRATOR state
      (Channel.Build (Channel.id chan) (Channel.guild_id chan)
         (Channel.type chan)
         (List.filter (spec_targets user member) (Channel.overwrites chan)))
      user /\
  (Forall (skipped user member) (Channel.overwrites chan) ->
   get_permissions ADMINISTRATOR state chan user = Return base).
Proof.
  intros Hgid Hguild Hbase Hmember.
  assert (Hall : forall ows,
             get_permissions ADMINISTRATOR state
               (Channel.Build (Channel.id chan) (Channel.guild_id chan)
                  (Channel.type chan) ows) user =
             Return (fold_left spec_merge
                       (List.filter (spec_targets user member) ows) base)).
  { intros ows. unfold get_permissions, Channel_guild in *.
    cbn [Channel.guild_id Channel.overwrites].
    rewrite Hgid, Hguild, Hbase, Hmember. cbn [negb].
    rewrite overwrites_loop_member, spec_resolve_filter. reflexivity. }
  assert (Hchan : get_permissions ADMINISTRATOR state chan user =
                  Return (fold_left spec_merge
                            (List.filter (spec_targets user member)
                               (Channel.overwrites chan)) base)).
  { rewrite <- Hall. destruct chan; reflexivity. }
  split; [exact Hchan|]. split.
  - rewrite Hchan, Hall, filter_twice. reflexivity.
  - intros Hskip. rewrite Hchan. f_equal. clear Hchan.
    induction Hskip as [|ow rest Hov _ IH]; [reflexivity|].
    apply spec_targets_false in Hov. cbn [List.filter]. rewrite Hov.
    exact IH.
Qed.

Lemma get_permissions_ignores_other_targets_witness :
  get_permissions 8 sample_state sample_channel alice = Return 6 /\
  get_permissions 8
    (State.Build {[ 100 := Guild.Build {[ 8 := GuildMember.Build [] ]}
                                       (fun _ => Return 3) ]})
    voice_channel stranger = Return 3.
Proof.
  split.
  - destruct (get_permissions_ignores_other_targets 8 sample_state
                sample_channel alice sample_guild alice_member 3)
      as (Hfold & _ & _); [reflexivity..|].
    rewrite Hfold. reflexivity.
  - destruct (get_permissions_ignores_other_targets 8
                (State.Build
                   {[ 100 := Guild.Build {[ 8 := GuildMember.Build [] ]}
                                         (fun _ => Return 3) ]})
                voice_channel stranger
                (Guild.Build {[ 8 := GuildMember.Build [] ]}
                             (fun _ => Return 3))
                (GuildMember.Build []) 3)
      as (_ & _ & Hnone); [reflexivity..|].
    apply Hnone. repeat constructor; discriminate.
Defined.

(** ** Permission resolution: failures *)

Lemma overwrite_step_no_member user base ow :
  overwrite_step user None base ow =
  if PermissionOverwrite.id ow =? User.id user
  then Return (spec_merge base ow)
  else Raise AttributeError.
Proof.
  unfold overwrite_step, spec_merge.
  destruct (PermissionOverwrite.id ow =? User.id user); reflexivity.
Qed.

Lemma overwrites_loop_no_member user ows :
  forall base,
    (Forall (fun ow => PermissionOverwrite.id ow = User.id user) ows ->
     overwrites_loop user None ows base =
     Return (fold_left spec_merge ows base)) /\
    (Exists (fun ow => PermissionOverwrite.id ow <> User.id user) ows ->
     overwrites_loop user None ows base = Raise AttributeError).
Proof.
  induction ows as [|ow rest IH]; intros base.
  - split; [reflexivity|]. intros Hex. inversion Hex.
  - cbn [overwrites_loop fold_left]. rewrite overwrite_step_no_member.
    destruct (Z.eqb_spec (PermissionOverwrite.id ow) (User.id user))
      as [Heq|Hne].
    + split.
      * intros Hall. inversion Hall; subst. apply IH. assumption.
      * intros Hex. inversion Hex; subst; [contradiction|].
        apply IH. assumption.
    + split; [|reflexivity].
      intros Hall. inversion Hall; subst. contradiction.
Qed.

(** [get_permissions] raises in three cases only: the guild is not in the
    client's state, the guild's own computation raises (the same exception
    comes out), or the user has no member entry while some overwrite
    carries another id. *)
Theorem get_permissions_raises_iff
    (ADMINISTRATOR : PermissionValue) (state : State.t) (chan : Channel.t)
    (user : User.t) (e : exn) :
  get_permissions ADMINISTRATOR state chan user = Raise e <->
  truthy (Channel.guild_id chan) = true /\
  match Channel_guild state chan with
  | None => e = AttributeError
  | Some guild =>
      match Guild.get_permissions guild user with
      | Raise e' => e = e'
      | Return _ =>
          e = AttributeError /\
          Guild.members guild !! User.id user = None /\
          Exists (fun ow => PermissionOverwrite.id ow <> User.id user)
                 (Channel.overwrites chan)
      end
  end.
Proof.
  unfold get_permissions.
  destruct (truthy (Channel.guild_id chan)); cbn [negb];
    [|split; [discriminate|intros [Hno _]; discriminate]].
  destruct (Channel_guild state chan) as [guild|];
    [|split; [intros [= <-]; split; reflexivity
             |intros [_ ->]; reflexivity]].
  destruct (Guild.get_permissions guild user) as [base|e'];
    [|split; [intros [= <-]; split; reflexivity
             |intros [_ ->]; reflexivity]].
  destruct (Guild.members guild !! User.id user) as [member|].
  - rewrite overwrites_loop_member.
    split; [discriminate|intros (_ & _ & Hno & _); discriminate].
  - destruct (overwrites_loop_no_member user (Channel.overwrites chan) base)
      as [Hdirect Hother].
    destruct (Forall_Exists_dec
                (fun ow => PermissionOverwrite.id ow = User.id user)
                (fun ow => PermissionOverwrite.id ow <> User.id user)
                (fun ow => Z.eq_dec (PermissionOverwrite.id ow)
                                    (User.id user))
                (Channel.overwrites chan)) as [Hall|Hex].
    + rewrite (Hdirect Hall). split; [discriminate|].
      intros (_ & _ & _ & Hex). exfalso.
      apply Exists_exists in Hex as (ow & Hin & Hne).
      rewrite Forall_forall in Hall. apply Hne, Hall, Hin.
    + rewrite (Hother Hex). split.
      * intros [= <-]. repeat split. exact Hex.
      * intros (_ & -> & _). reflexivity.
Qed.

Lemma get_permissions_raises_iff_witness :
  get_permissions 8 sample_state sample_channel stranger
  = Raise AttributeError.
Proof.
  apply (get_permissions_raises_iff 8 sample_state sample_channel stranger
           AttributeError).
  split; [reflexivity|]. cbn.
  split; [reflexivity|]. split; [reflexivity|].
  apply Exists_cons_hd. discriminate.
Defined.

(** A user without a member entry still resolves when every overwrite of
    the channel is the user's own: the role list is never consulted and
    each overwrite is applied. *)
Theorem get_permissions_own_overwrites_need_no_member
    (ADMINISTRATOR : PermissionValue) (state : State.t) (chan : Channel.t)
    (user : User.t) (guild : Guild.t) (base : PermissionValue) :
  truthy (Channel.guild_id chan) = true ->
  Channel_guild state chan = Some guild ->
  Guild.get_permissions guild user = Return base ->
  Guild.members guild !! User.id user = None ->
  Forall (fun ow => PermissionOverwrite.id ow = User.id user)
         (Channel.overwrites chan) ->
  get_permissions ADMINISTRATOR state chan user =
  Return (fold_left spec_merge (Channel.overwrites chan) base).
Proof.
  intros Hgid Hguild Hbase Hmember Hown. unfold get_permissions.
  rewrite Hgid, Hguild, Hbase, Hmember. cbn [negb].
  apply overwrites_loop_no_member, Hown.
Qed.

Lemma get_permissions_own_overwrites_need_no_member_witness :
  get_permissions 8 sample_state
    (Channel.Build 4 (Some 100) GUILD_TEXT
       [PermissionOverwrite.Build 8 MEMBER 8 1]) stranger
  = Return 10.
Proof.
  rewrite (get_permissions_own_overwrites_need_no_member 8 sample_state
             (Channel.Build 4 (Some 100) GUILD_TEXT
                [PermissionOverwrite.Build 8 MEMBER 8 1])
             stranger sample_guild 3);
    [reflexivity..|].
  repeat constructor.
Defined.

(** ** Permission resolution: the last overwrite that counts *)

Lemma spec_merge_bit base ow i :
  0 <= i ->
  Z.testbit (spec_merge base ow) i =
  Z.testbit (PermissionOverwrite.allow ow) i
  || (Z.testbit base i && negb (Z.testbit (PermissionOverwrite.deny ow) i)).
Proof.
  intros Hi. unfold spec_merge, Perm.add, Perm.sub.
  rewrite Z.lor_spec, Z.land_spec, Z.lnot_spec by exact Hi.
  apply orb_comm.
Qed.

Lemma fold_skipped user member post :
  Forall (skipped user member) post ->
  forall base, spec_resolve user member post base = base.
Proof.
  induction 1 as [|ow rest Hov _ IH]; intros base; [reflexivity|].
  apply spec_targets_false in Hov. unfold spec_resolve in *.
  cbn [fold_left]. rewrite Hov. apply IH.
Qed.

(** The last overwrite that targets the user decides every bit it names:
    a bit it allows is granted, also when it denies the same bit; a bit it
    only denies is withheld; any other bit is as the overwrites before it
    left it. *)
Theorem get_permissions_last_overwrite_decides
    (ADMINISTRATOR : PermissionValue) (state : State.t) (chan : Channel.t)
    (user : User.t) (guild : Guild.t) (member : GuildMember.t)
    (base : PermissionValue)
    (pre post : list PermissionOverwrite.t) (ow : PermissionOverwrite.t) :
  truthy (Channel.guild_id chan) = true ->
  Channel_guild state chan = Some guild ->
  Guild.get_permissions guild user = Return base ->
  Guild.members guild !! User.id user = Some member ->
  Channel.overwrites chan = pre ++ ow :: post ->
  spec_targets user member ow = true ->
  Forall (skipped user member) post ->
  exists r,
    get_permissions ADMINISTRATOR state chan user = Return r /\
    forall i, 0 <= i ->
      Z.testbit r i =
      Z.testbit (PermissionOverwrite.allow ow) i
      || (Z.testbit (spec_resolve user member pre base) i
          && negb (Z.testbit (PermissionOverwrite.deny ow) i)).
Proof.
  intros Hgid Hguild Hbase Hmember Hows Hov Hpost.
  eexists. split.
  - unfold get_permissions. rewrite Hgid, Hguild, Hbase, Hmember, Hows.
    cbn [negb]. apply overwrites_loop_member.
  - intros i Hi. unfold spec_resolve. rewrite fold_left_app.
    cbn [fold_left]. rewrite Hov.
    fold (spec_resolve user member post
            (spec_merge (fold_left
               (fun base0 ow0 => if spec_targets user member ow0
                                 then spec_merge base0 ow0 else base0)
               pre base) ow)).
    rewrite (fold_skipped user member post Hpost).
    apply spec_merge_bit, Hi.
Qed.

Lemma get_permissions_last_overwrite_decides_witness :
  exists r,
    get_permissions 8 sample_state sample_channel alice = Return r /\
    Z.testbit r 2 = true.
Proof.
  destruct (get_permissions_last_overwrite_decides 8 sample_state
              sample_channel alice sample_guild alice_member 3
              [ PermissionOverwrite.Build everyone_role ROLE 0 1;
                PermissionOverwrite.Build 8 MEMBER 16 2 ]
              [] (PermissionOverwrite.Build 7 MEMBER 4 0))
    as (r & Hr & Hbits); [reflexivity..|constructor|].
  exists r. split; [exact Hr|].
  rewrite (Hbits 2) by lia. reflexivity.
Defined.

(** ** Channel categories *)

(** Every channel is a guild channel or a DM, never both, and each of the
    two kinds has one type that supports voice and one that does not. *)
Theorem channel_is_guild_xor_dm (chan : Channel.t) :
  is_dm chan = negb (is_guild chan) /\
  (is_voice chan = true <->
   Channel.type chan = GUILD_VOICE \/ Channel.type chan = GROUP_DM) /\
  (is_guild chan && is_voice chan = true <->
   Channel.type chan = GUILD_VOICE) /\
  (is_dm chan && is_voice chan = true <-> Channel.type chan = GROUP_DM).
Proof.
  unfold is_dm, is_guild, is_voice, type_in.
  destruct (Channel.type chan); cbn;
    repeat split; intros; try discriminate; try reflexivity;
    try (left; reflexivity); try (right; reflexivity);
    match goal with
    | H : _ \/ _ |- _ => destruct H; discriminate
    end.
Qed.

(** ** Deleting messages: routes, failures and runtimes *)

Lemma Forall_map_all {A B} (P : B -> Prop) (f : A -> B) (l : list A) :
  (forall x, P (f x)) -> Forall P (map f l).
Proof.
  intros Hall. induction l as [|x l IH]; constructor; [apply Hall|exact IH].
Qed.

Lemma length_chunks_from {A} k :
  forall (l : list A) n, (length (chunks_from k l n) <= k)%nat.
Proof.
  induction k as [|k IH]; intros l n; [cbn; lia|].
  destruct l as [|x l]; [cbn; lia|].
  rewrite chunks_from_cons. cbn [length].
  specialize (IH (drop n (x :: l)) n). lia.
Qed.

(** What [send_all] leaves in the log is a prefix of the calls, and an
    exception it raises is the one of the last call it made. *)
Lemma send_all_sent (fails : ApiFailures) (calls : list ApiCall) :
  forall log,
  exists k,
    (k <= length calls)%nat /\
    snd (send_all fails calls log) = log ++ take k calls /\
    (forall e, fst (send_all fails calls log) = Raise e ->
       exists pre c,
         take k calls = pre ++ [c] /\ fails (log ++ pre) c = Some e) /\
    ((forall l c, fails l c = None) ->
     fst (send_all fails calls log) = Return tt).
Proof.
  induction calls as [|c rest IH]; intros log.
  - exists 0%nat. cbn. rewrite app_nil_r.
    repeat split; [lia|discriminate].
  - cbn [send_all]. destruct (fails log c) as [e|] eqn:Hc.
    + exists 1%nat. cbn [length snd fst take]. rewrite take_0.
      split; [lia|]. split; [reflexivity|]. split.
      * intros e' [= <-]. exists [], c. rewrite app_nil_r.
        split; [reflexivity|exact Hc].
      * intros Hok. rewrite Hok in Hc. discriminate.
    + destruct (IH (log ++ [c])) as (k & Hk & Hsnd & Hraise & Hok).
      exists (S k). cbn [length take].
      split; [lia|]. split; [rewrite Hsnd, <- app_assoc; reflexivity|].
      split; [|exact Hok].
      intros e He. destruct (Hraise e He) as (pre & c' & Hpre & Hfail).
      exists (c :: pre), c'. rewrite Hpre.
      split; [reflexivity|]. rewrite <- app_assoc in Hfail. exact Hfail.
Qed.

(** On Python 2, up to two messages are deleted exactly as by calling
    [delete_message] on each in turn, whether they are given as messages
    or as ids and whether or not a call fails (the first failure ends
    both); an empty list sends nothing.  On Python 3 the same lists raise
    [TypeError] and nothing is sent. *)
Theorem delete_messages_few_is_delete_message (fails : ApiFailures)
    (chan : Channel.t) (messages : list MessageRef) (log : list ApiCall) :
  (length messages <= 2)%nat ->
  delete_messages Python2 fails chan messages log =
    for_each messages (delete_message fails chan) log /\
  (messages = [] ->
   delete_messages Python2 fails chan messages log = (Return tt, log)) /\
  delete_messages Python3 fails chan messages log = (Raise TypeError, log).
Proof.
  intros Hlen. split; [|split; [intros ->; reflexivity|reflexivity]].
  rewrite delete_messages_python2. cbv zeta.
  destruct (Nat.eqb_spec (length messages) 0) as [Hzero|_].
  - destruct messages; [reflexivity|discriminate].
  - destruct (Nat.leb_spec (length messages) 2) as [_|]; [|lia].
    unfold delete_message.
    rewrite (for_each_api_call fails
               (fun m => channels_messages_delete (Channel.id chan)
                           (to_snowflake m))).
    rewrite map_map. reflexivity.
Qed.

Lemma delete_messages_few_is_delete_message_witness :
  delete_messages Python2 reliable sample_channel
    [by_message (Message.Build 12); by_id 11] []
  = (Return tt, [channels_messages_delete 1 12; channels_messages_delete 1 11])
  /\ delete_messages Python2 refuses_12 sample_channel
       [by_message (Message.Build 12); by_id 11] []
     = (Raise (Exception "HTTP 403"), [channels_messages_delete 1 12])
  /\ delete_messages Python2 reliable sample_channel [] [] = (Return tt, []).
Proof.
  split; [|split].
  - destruct (delete_messages_few_is_delete_message reliable sample_channel
                [by_message (Message.Build 12); by_id 11] []) as [Heach _];
      [cbn; lia|].
    rewrite Heach. reflexivity.
  - destruct (delete_messages_few_is_delete_message refuses_12 sample_channel
                [by_message (Message.Build 12); by_id 11] []) as [Heach _];
      [cbn; lia|].
    rewrite Heach. reflexivity.
  - destruct (delete_messages_few_is_delete_message reliable sample_channel
                [] []) as (_ & Hnone & _); [cbn; lia|].
    apply Hnone. reflexivity.
Defined.

(** For a list of any length, on either runtime and whatever the client
    does, [delete_messages] keeps the calls already made, addresses every
    call to this channel, never mixes the two routes (the calls are all
    single deletes or all bulk deletes) and makes at most one call per
    message.  It raises in two ways only: on Python 3 with [TypeError]
    and no call made, and on Python 2 with the exception of a failed
    request, which is then the last call made: the loop stops there.
    With a client whose requests succeed it returns on Python 2. *)
Theorem delete_messages_one_route (runtime : Runtime) (fails : ApiFailures)
    (chan : Channel.t) (messages : list MessageRef) (log : list ApiCall) :
  exists sent,
    snd (delete_messages runtime fails chan messages log) = log ++ sent /\
    (length sent <= length messages)%nat /\
    (Forall (fun c => exists m,
                 c = channels_messages_delete (Channel.id chan) m) sent \/
     Forall (fun c => exists ms,
                 c = channels_messages_delete_bulk (Channel.id chan) ms) sent)
    /\
    (forall e,
        fst (delete_messages runtime fails chan messages log) = Raise e ->
        (runtime = Python3 /\ e = TypeError /\ sent = []) \/
        (runtime = Python2 /\
         exists pre c, sent = pre ++ [c] /\ fails (log ++ pre) c = Some e))
    /\
    (runtime = Python2 -> (forall l c, fails l c = None) ->
     fst (delete_messages runtime fails chan messages log) = Return tt).
Proof.
  destruct runtime.
  - rewrite delete_messages_python2. cbv zeta.
    destruct (Nat.eqb_spec (length messages) 0) as [Hzero|Hpos].
    + exists []. rewrite app_nil_r. cbn [fst snd].
      split; [reflexivity|]. split; [cbn; lia|].
      split; [left; constructor|]. split; [discriminate|reflexivity].
    + destruct (Nat.leb_spec (length messages) 2) as [Hfew|Hmany].
      * destruct (send_all_sent fails
                    (map (channels_messages_delete (Channel.id chan))
                         (map to_snowflake messages)) log)
          as (k & Hk & Hsnd & Hraise & Hok).
        eexists. split; [exact Hsnd|].
        split; [rewrite length_take, !length_map in *; lia|].
        split; [left; apply Forall_take, Forall_map_all;
                intros m; exists m; reflexivity|].
        split; [|intros _; exact Hok].
        intros e He. right. split; [reflexivity|apply Hraise, He].
      * destruct (send_all_sent fails
                    (map (channels_messages_delete_bulk (Channel.id chan))
                         (chunks (map to_snowflake messages) 100)) log)
          as (k & Hk & Hsnd & Hraise & Hok).
        eexists. split; [exact Hsnd|].
        split.
        { rewrite length_take, length_map. unfold chunks.
          pose proof (length_chunks_from
                        (length (map to_snowflake messages))
                        (map to_snowflake messages) 100) as Hc.
          pose proof (length_map to_snowflake messages) as Hids. lia. }
        split; [right; apply Forall_take, Forall_map_all;
                intros ms; exists ms; reflexivity|].
        split; [|intros _; exact Hok].
        intros e He. right. split; [reflexivity|apply Hraise, He].
  - rewrite delete_messages_python3. exists []. rewrite app_nil_r.
    cbn [fst snd]. split; [reflexivity|]. split; [cbn; lia|].
    split; [left; constructor|]. split; [|discriminate].
    intros e [= <-]. left. repeat split.
Qed.

Lemma delete_messages_one_route_witness :
  exists sent,
    snd (delete_messages Python2 refuses_12 sample_channel
           [by_id 12; by_id 13] []) = [] ++ sent /\
    (Python2 = Python3 /\ Exception "HTTP 403" = TypeError /\ sent = [] \/
     Python2 = Python2 /\
     exists pre c,
       sent = pre ++ [c] /\
       refuses_12 ([] ++ pre) c = Some (Exception "HTTP 403")).
Proof.
  destruct (delete_messages_one_route Python2 refuses_12 sample_channel
              [by_id 12; by_id 13] [])
    as (sent & Hsnd & _ & _ & Hraise & _).
  exists sent. split; [exact Hsnd|].
  apply Hraise. reflexivity.
Defined.

Lemma channel_is_guild_xor_dm_witness :
  is_guild voice_channel && is_voice voice_channel = true /\
  is_dm voice_channel = false.
Proof.
  destruct (channel_is_guild_xor_dm voice_channel) as (Hdm & _ & Hgv & _).
  split; [apply Hgv; reflexivity|rewrite Hdm; reflexivity].
Defined.

(** ** The iterator: exceptions and requests of one call *)

Lemma fill_log (w : World) :
  api_log (snd (fill w)) = api_log w ++ [request (self w)].
Proof.
  rewrite fill_unfold. destruct (last (response (self w))); reflexivity.
Qed.

Lemma deliver_log (w : World) : api_log (snd (deliver w)) = api_log w.
Proof.
  unfold deliver. destruct (MessageIterator.bulk (self w)); [reflexivity|].
  destruct (last (MessageIterator._buffer (self w))); reflexivity.
Qed.

Lemma deliver_returns (w : World) :
  MessageIterator._buffer (self w) <> [] ->
  exists y, fst (deliver w) = Return y.
Proof.
  intros Hbuf. unfold deliver.
  destruct (MessageIterator.bulk (self w)); [eexists; reflexivity|].
  destruct (last (MessageIterator._buffer (self w))) as [m|] eqn:Hlast;
    [eexists; reflexivity|].
  apply last_None in Hlast. contradiction.
Qed.

Lemma next_raise_cases (w : World) (e : exn) :
  fst (next w) = Raise e <->
  e = StopIteration /\
  MessageIterator._buffer (self w) = [] /\
  response (self w) = [].
Proof.
  rewrite next_unfold.
  destruct (MessageIterator._buffer (self w)) as [|x l] eqn:Hbuf.
  - rewrite fill_unfold.
    destruct (last (response (self w))) as [m|] eqn:Hlast.
    + destruct (filled_buffer (self w) m Hlast) as [_ Hne].
      destruct (deliver_returns
                  (Build_World (filled (self w) m)
                               (api_log w ++ [request (self w)])) Hne)
        as [y Hy].
      rewrite Hy. split; [discriminate|].
      intros (_ & _ & Hpage). rewrite Hpage in Hlast. discriminate.
    + apply last_None in Hlast. cbn [fst]. split.
      * intros [= <-]. repeat split. exact Hlast.
      * intros (-> & _). reflexivity.
  - destruct (deliver_returns w) as [y Hy]; [rewrite Hbuf; discriminate|].
    rewrite Hy. split; [discriminate|intros (_ & Hno & _); discriminate].
Qed.

Lemma next_log (w : World) :
  api_log (snd (next w)) =
  api_log w ++
  match MessageIterator._buffer (self w) with
  | [] => [request (self w)]
  | _ :: _ => []
  end.
Proof.
  rewrite next_unfold.
  destruct (MessageIterator._buffer (self w)) as [|x l].
  - pose proof (fill_log w) as Hlog.
    destruct (fill w) as [[[]|e] w1]; cbn [snd] in *;
      [rewrite deliver_log|]; exact Hlog.
  - rewrite deliver_log, app_nil_r. reflexivity.
Qed.

(** One call of [next] sends one request when the buffer is empty and none
    while messages are buffered; the request is the listing for the
    cursors the iterator holds. *)
Theorem next_sends_at_most_one_request (w : World) :
  api_log (snd (next w)) =
  api_log w ++
  match MessageIterator._buffer (self w) with
  | [] => [request (self w)]
  | _ :: _ => []
  end.
Proof. exact (next_log w). Qed.

(** ** The iterator: what no call changes *)

Lemma same_settings_refl it : same_settings it it.
Proof. repeat split. Qed.

Lemma same_settings_trans a b c :
  same_settings a b -> same_settings b c -> same_settings a c.
Proof.
  unfold same_settings. intros (H1 & H2 & H3 & H4 & H5 & H6)
    (K1 & K2 & K3 & K4 & K5 & K6).
  repeat split; congruence.
Qed.

Lemma fill_settings (w : World) :
  same_settings (self w) (self (snd (fill w))).
Proof.
  rewrite fill_unfold.
  destruct (last (response (self w))) as [m|]; cbn [snd self].
  - unfold filled. destruct (Direction_eqb _ _); repeat split.
  - repeat split.
Qed.

Lemma deliver_settings (w : World) :
  same_settings (self w) (self (snd (deliver w))).
Proof.
  unfold deliver. destruct (MessageIterator.bulk (self w)); [repeat split|].
  destruct (last (MessageIterator._buffer (self w))); repeat split.
Qed.

Lemma next_settings (w : World) :
  same_settings (self w) (self (snd (next w))).
Proof.
  rewrite next_unfold.
  destruct (MessageIterator._buffer (self w)); [|apply deliver_settings].
  pose proof (fill_settings w) as Hfill.
  destruct (fill w) as [[[]|e] w1]; cbn [snd] in *; [|exact Hfill].
  eapply same_settings_trans; [exact Hfill|apply deliver_settings].
Qed.

Lemma invoke_step (m : Method) (w : World) :
  same_settings (self w) (self (invoke m w)) /\
  (api_log (invoke m w) = api_log w \/
   api_log (invoke m w) = api_log w ++ [request (self w)]).
Proof.
  destruct m; cbn [invoke].
  - split; [apply fill_settings|right; apply fill_log].
  - split; [apply next_settings|].
    rewrite next_log.
    destruct (MessageIterator._buffer (self w));
      [right; reflexivity|left; apply app_nil_r].
Qed.

(** No call of [fill] or [next] changes the client, the channel, the
    direction, the mode or the chunk size, so every request of a run lists
    the iterator's own channel with its own chunk size, and a run of [n]
    calls sends at most [n] requests. *)
Theorem iterator_settings_are_fixed (calls : list Method) :
  forall w : World,
    same_settings (self w) (self (invoke_all calls w)) /\
    exists sent,
      api_log (invoke_all calls w) = api_log w ++ sent /\
      (length sent <= length calls)%nat /\
      Forall (fun c => exists before after,
                  c = channels_messages_list
                        (MessageIterator.channel (self w)) before after
                        (MessageIterator.chunk_size (self w))) sent.
Proof.
  induction calls as [|m calls IH]; intros w.
  - split; [apply same_settings_refl|].
    exists []. rewrite app_nil_r. repeat split; [cbn; lia|constructor].
  - destruct (invoke_step m w) as [Hset Hlog].
    destruct (IH (invoke m w)) as (Hset' & sent & Hsent & Hlen & Hall).
    change (invoke_all (m :: calls) w) with (invoke_all calls (invoke m w)).
    split; [eapply same_settings_trans; eassumption|].
    assert (Hall' : Forall (fun c => exists before after,
                      c = channels_messages_list
                            (MessageIterator.channel (self w)) before after
                            (MessageIterator.chunk_size (self w))) sent).
    { destruct Hset as (_ & Hch & _ & _ & Hsize & _).
      rewrite Hch, Hsize. exact Hall. }
    destruct Hlog as [Hlog|Hlog]; rewrite Hlog in Hsent.
    + exists sent. repeat split; [exact Hsent|cbn; lia|exact Hall'].
    + exists (request (self w) :: sent).
      split; [rewrite Hsent, <- app_assoc; reflexivity|].
      split; [cbn; lia|].
      constructor; [|exact Hall']. unfold request. eauto.
Qed.

(** ** The iterator: what a page becomes *)

Lemma fill_buffer (w : World) :
  MessageIterator._buffer (self (snd (fill w))) =
  stored (MessageIterator.direction (self w)) (response (self w)).
Proof.
  rewrite fill_unfold. unfold stored.
  destruct (last (response (self w))) as [m|] eqn:Hlast; cbn [snd self].
  - apply filled_buffer, Hlast.
  - apply last_None in Hlast. rewrite Hlast.
    destruct (Direction_eqb _ _); reflexivity.
Qed.


Lemma pull_after_fill (w w1 : World) (k : nat) :
  MessageIterator._buffer (self w) = [] ->
  fill w = (Return tt, w1) ->
  MessageIterator._buffer (self w1) <> [] ->
  pull (S k) w = pull (S k) w1.
Proof.
  intros Hbuf Hfill Hne. cbn [pull].
  rewrite (next_drained w Hbuf), Hfill, (next_buffered w1 Hne).
  reflexivity.
Qed.

Lemma stored_nil direction page :
  stored direction page = [] <-> page = [].
Proof.
  unfold stored. destruct (Direction_eqb direction UP); [reflexivity|].
  split; [|intros ->; reflexivity].
  intros Hrev. rewrite <- (reverse_involutive page), Hrev. reflexivity.
Qed.

(** How a fetched page reaches the caller.  In bulk mode [next] returns
    the page as one batch, newest first for an upward iterator and oldest
    first for a downward one.  In per-message mode the following calls
    hand the page out from the tail of the buffer without a further
    request: oldest first for an upward iterator, and in the order the
    remote sent it, newest first, for a downward one. *)
Theorem page_order_by_mode (w : World) (page : list Message.t) :
  MessageIterator._buffer (self w) = [] ->
  response (self w) = page ->
  page <> [] ->
  (MessageIterator.bulk (self w) = true ->
   fst (next w) =
   Return (Batch (if Direction_eqb (MessageIterator.direction (self w)) UP
                  then page else reverse page))) /\
  (MessageIterator.bulk (self w) = false ->
   exists w',
     pull (length page) w =
     (map Single
        (if Direction_eqb (MessageIterator.direction (self w)) UP
         then reverse page else page),
      None, w') /\
     MessageIterator._buffer (self w') = [] /\
     api_log w' = api_log w ++ [request (self w)]).
Proof.
  intros Hbuf Hpage Hne.
  destruct (fill_stores w) as (m & Hlast & Hfill); [congruence|].
  pose proof (fill_buffer w) as Hstored. rewrite Hpage in Hstored.
  pose proof (fill_bulk w) as Hbulk.
  rewrite Hfill in Hstored, Hbulk. cbn [snd] in Hstored, Hbulk.
  set (w1 := Build_World (filled (self w) m)
               (api_log w ++ [request (self w)])) in *.
  split.
  - intros Hb. rewrite (next_drained w Hbuf), Hfill. unfold deliver.
    fold w1. rewrite Hbulk, Hb, Hstored. reflexivity.
  - intros Hb.
    assert (Hlen : length page =
                   length (stored (MessageIterator.direction (self w)) page)).
    { unfold stored. destruct (Direction_eqb _ _);
        [reflexivity|symmetry; apply length_reverse]. }
    assert (Hne1 : MessageIterator._buffer (self w1) <> []).
    { rewrite Hstored. intros Hnil. apply stored_nil in Hnil. contradiction. }
    eexists. split; [|split].
    + destruct page as [|x rest]; [contradiction|].
      change (length (x :: rest)) with (S (length rest)).
      rewrite (pull_after_fill w w1 _ Hbuf Hfill Hne1).
      change (S (length rest)) with (length (x :: rest)). rewrite Hlen.
      rewrite (pull_buffer _ w1); [|rewrite Hbulk; exact Hb|exact Hstored].
      unfold stored. destruct (Direction_eqb _ _);
        [reflexivity|rewrite reverse_involutive; reflexivity].
    + reflexivity.
    + reflexivity.
Qed.

Lemma page_order_by_mode_witness :
  fst (next (start bulk_five)) = Return (Batch (reverse (numbered 4 2))) /\
  fst (fst (pull 2 (start single_five))) = map Single (numbered 4 2) /\
  fst (fst (pull 100 (start downwards))) =
    map Single (reverse (numbered 2 100)).
Proof.
  split; [|split].
  - destruct (page_order_by_mode (start bulk_five) (reverse (numbered 4 2)))
      as [Hbulk _]; [reflexivity|reflexivity|discriminate|].
    rewrite Hbulk; reflexivity.
  - destruct (page_order_by_mode (start single_five)
                (reverse (numbered 4 2)))
      as [_ Hsingle]; [reflexivity|reflexivity|discriminate|].
    destruct Hsingle as (w' & Hpull & _); [reflexivity|].
    change 2%nat with (length (reverse (numbered 4 2))).
    rewrite Hpull. reflexivity.
  - destruct (page_order_by_mode (start downwards)
                (reverse (numbered 2 100)))
      as [_ Hsingle]; [reflexivity|vm_compute; reflexivity|discriminate|].
    destruct Hsingle as (w' & Hpull & _); [reflexivity|].
    change 100%nat with (length (reverse (numbered 2 100))).
    rewrite Hpull. reflexivity.
Defined.

(** ** The iterator: the end of a run *)

Lemma next_stop (w : World) :
  fst (next w) = Raise StopIteration ->
  next w =
  (Raise StopIteration, Build_World (self w) (api_log w ++ [request (self w)])).
Proof.
  intros Hstop. apply next_raise_cases in Hstop as (_ & Hbuf & Hpage).
  rewrite (next_drained w Hbuf), (fill_stops w Hpage), <- Hbuf,
    set_buffer_same.
  reflexivity.
Qed.

(** The iterator keeps no memory of having ended.  A call of [next] that
    raises [StopIteration] leaves every field as it was and has sent one
    request; the next call sends the same request again and, the remote
    answering as before, raises again. *)
Theorem exhaustion_is_not_remembered (w : World) :
  fst (next w) = Raise StopIteration ->
  self (snd (next w)) = self w /\
  api_log (snd (next w)) = api_log w ++ [request (self w)] /\
  next (snd (next w)) =
  (Raise StopIteration,
   Build_World (self w)
     (api_log w ++ [request (self w); request (self w)])).
Proof.
  intros Hstop. rewrite (next_stop w Hstop). cbn [snd self api_log].
  split; [reflexivity|]. split; [reflexivity|].
  set (w' := Build_World (self w) (api_log w ++ [request (self w)])).
  assert (Hagain : fst (next w') = Raise StopIteration).
  { apply next_raise_cases. apply next_raise_cases in Hstop.
    exact Hstop. }
  rewrite (next_stop w' Hagain). cbn [w' self api_log].
  rewrite <- app_assoc. reflexivity.
Qed.

Lemma exhaustion_is_not_remembered_witness :
  fst (next (snd (next (snd (fill halfway))))) = Raise StopIteration.
Proof.
  destruct (exhaustion_is_not_remembered (snd (fill halfway)))
    as (_ & _ & Hagain); [reflexivity|].
  rewrite Hagain. reflexivity.
Defined.

(** What [next] returns follows the mode: a bulk iterator only returns
    batches, never an empty one, and is left with an empty buffer; a
    per-message iterator only returns single messages, and its buffer is
    one message shorter than what it held or fetched. *)
Theorem next_yield_follows_mode (w : World) (y : Yield) :
  fst (next w) = Return y ->
  (MessageIterator.bulk (self w) = true ->
   exists p, y = Batch p /\ p <> [] /\
             MessageIterator._buffer (self (snd (next w))) = []) /\
  (MessageIterator.bulk (self w) = false ->
   exists m, y = Single m /\
     (MessageIterator._buffer (self w) <> [] ->
      MessageIterator._buffer (self w) =
        MessageIterator._buffer (self (snd (next w))) ++ [m]) /\
     (MessageIterator._buffer (self w) = [] ->
      stored (MessageIterator.direction (self w)) (response (self w)) =
        MessageIterator._buffer (self (snd (next w))) ++ [m])).
Proof.
  assert (Hdeliver : forall w1 : World,
             MessageIterator._buffer (self w1) <> [] ->
             forall y1, fst (deliver w1) = Return y1 ->
             (MessageIterator.bulk (self w1) = true ->
              exists p, y1 = Batch p /\ p <> [] /\
                        MessageIterator._buffer (self (snd (deliver w1))) = [])
             /\
             (MessageIterator.bulk (self w1) = false ->
              exists m, y1 = Single m /\
                        MessageIterator._buffer (self w1) =
                        MessageIterator._buffer (self (snd (deliver w1)))
                        ++ [m])).
  { intros w1 Hne y1. unfold deliver.
    destruct (MessageIterator.bulk (self w1)).
    - intros [= <-]. split; [|discriminate]. intros _.
      eexists. repeat split. exact Hne.
    - destruct (last (MessageIterator._buffer (self w1))) as [m|] eqn:Hlast;
        [|discriminate].
      intros [= <-]. split; [discriminate|]. intros _.
      exists m. split; [reflexivity|]. cbn [snd self].
      apply last_Some in Hlast as [l' Hl']. rewrite Hl'.
      cbn [MessageIterator.set_buffer MessageIterator._buffer].
      rewrite removelast_last. reflexivity. }
  rewrite next_unfold.
  destruct (MessageIterator._buffer (self w)) as [|x l] eqn:Hbuf.
  - pose proof (fill_buffer w) as Hstored.
    pose proof (fill_bulk w) as Hbulk.
    rewrite fill_unfold in *.
    destruct (last (response (self w))) as [m0|] eqn:Hlast; [|discriminate].
    cbn [snd] in Hstored, Hbulk.
    destruct (filled_buffer (self w) m0 Hlast) as [_ Hne].
    intros Hy.
    destruct (Hdeliver (Build_World (filled (self w) m0)
                          (api_log w ++ [request (self w)])) Hne y Hy)
      as [Hb Hs].
    cbn [self] in Hb, Hs, Hbulk, Hstored. rewrite Hbulk in Hb, Hs.
    split; [exact Hb|].
    intros Hmode. destruct (Hs Hmode) as (m & -> & Hsplit).
    exists m. split; [reflexivity|]. split; [intros Hno; contradiction|].
    intros _. rewrite <- Hstored. exact Hsplit.
  - intros Hy.
    assert (Hne : MessageIterator._buffer (self w) <> [])
      by (rewrite Hbuf; discriminate).
    destruct (Hdeliver w Hne y Hy) as [Hb Hs].
    split; [exact Hb|].
    intros Hmode. destruct (Hs Hmode) as (m & -> & Hsplit).
    exists m. split; [reflexivity|].
    split; [intros _; rewrite <- Hbuf; exact Hsplit|discriminate].
Qed.

Lemma next_yield_follows_mode_witness :
  exists p, fst (next (start bulk_five)) = Return (Batch p) /\ p <> [].
Proof.
  destruct (next_yield_follows_mode (start bulk_five)
              (Batch (reverse (numbered 4 2)))) as [Hbulk _];
    [reflexivity|].
  destruct Hbulk as (p & Hp & Hne & _); [reflexivity|].
  exists p. split; [rewrite <- Hp; reflexivity|exact Hne].
Defined.

(** ** A downward scan never ends *)

Lemma uncursored_response ch limit w :
  uncursored ch limit w ->
  response (self w) =
  Client.messages_list (MessageIterator.client (self w)) ch None None limit.
Proof.
  intros (_ & Hbefore & Hafter & Hch & Hlimit). unfold response.
  rewrite Hbefore, Hafter, Hch, Hlimit. reflexivity.
Qed.

Lemma uncursored_pull client ch limit (n : nat) :
  Client.messages_list client ch None None limit <> [] ->
  forall w,
    uncursored ch limit w ->
    MessageIterator.client (self w) = client ->
    exists ys w',
      pull n w = (ys, None, w') /\ length ys = n /\
      uncursored ch limit w' /\ MessageIterator.client (self w') = client.
Proof.
  intros Hpage. induction n as [|n IH]; intros w Hw Hclient.
  - exists [], w. split; [reflexivity|]. split; [reflexivity|].
    split; assumption.
  - cbn [pull].
    destruct (invoke_uncursored ch limit call_next w Hw) as [Hw1 _].
    pose proof (next_settings w) as (Hc & _). cbn [invoke] in Hw1.
    destruct (next w) as [[y|e] w1] eqn:Hnext; cbn [snd] in *.
    + destruct (IH w1 Hw1) as (ys & w' & Hpull & Hlen & Hw' & Hc');
        [congruence|].
      rewrite Hpull. exists (y :: ys), w'.
      split; [reflexivity|]. split; [cbn; rewrite Hlen; reflexivity|].
      split; assumption.
    + exfalso. apply Hpage.
      assert (Hraise : fst (next w) = Raise e) by (rewrite Hnext; reflexivity).
      apply next_raise_cases in Hraise as (_ & _ & Hempty).
      rewrite (uncursored_response ch limit w Hw), Hclient in Hempty.
      exact Hempty.
Qed.

Lemma fill_DOWN_uncursored (w : World) :
  MessageIterator.direction (self w) = DOWN ->
  fst (fill w) = Return tt ->
  uncursored (MessageIterator.channel (self w))
             (MessageIterator.chunk_size (self w)) (snd (fill w)).
Proof.
  intros Hdown. rewrite fill_unfold.
  destruct (last (response (self w))) as [m|]; [intros _|discriminate].
  cbn [snd]. destruct (filled_fixed (self w) m) as (Hd & Hc & Hl).
  unfold uncursored. cbn [self].
  rewrite Hd, Hc, Hl, filled_after, (filled_before_DOWN _ _ Hdown).
  repeat split. exact Hdown.
Qed.

(** Once a downward iterator has stored a page it asks for the newest page
    over and over: when the channel's cursorless listing is not empty,
    every later call of [next] returns and none raises [StopIteration],
    whatever the number of calls. *)
Theorem down_scan_never_ends (w : World) :
  MessageIterator.direction (self w) = DOWN ->
  fst (fill w) = Return tt ->
  Client.messages_list (MessageIterator.client (self w))
    (MessageIterator.channel (self w)) None None
    (MessageIterator.chunk_size (self w)) <> [] ->
  forall n : nat,
  exists ys w',
    pull n (snd (fill w)) = (ys, None, w') /\ length ys = n.
Proof.
  intros Hdown Hfill Hpage n.
  destruct (uncursored_pull _ _ _ n Hpage (snd (fill w)))
    as (ys & w' & Hpull & Hlen & _).
  - apply fill_DOWN_uncursored; assumption.
  - symmetry. apply (fill_settings w).
  - exists ys, w'. split; assumption.
Qed.

Lemma down_scan_never_ends_witness :
  exists ys w',
    pull 250 (snd (fill (start downwards))) = (ys, None, w') /\
    length ys = 250%nat.
Proof.
  apply (down_scan_never_ends (start downwards));
    [reflexivity|reflexivity|vm_compute; discriminate].
Defined.

(** ** An upward scan reads a whole history *)

Lemma cursor_at_response (h : list Message.t) ch limit k kept :
  increasing h = true ->
  (k <= length h)%nat ->
  response (MessageIterator.Build (remote h) ch UP true (cursor_at h k) None
              limit kept []) =
  reverse (drop (k - Z.to_nat limit) (take k h)).
Proof.
  intros Hinc Hk. rewrite response_remote. unfold cursor_at.
  destruct (h !! k) as [m|] eqn:Hm.
  - apply listMessages_before; assumption.
  - apply lookup_ge_None in Hm.
    assert (Hlen : k = length h) by lia. subst k.
    rewrite listMessages_newest, firstn_all. reflexivity.
Qed.

Lemma up_scan_from (h : list Message.t) (ch : snowflake) (limit : Z) :
  increasing h = true ->
  (1 <= Z.to_nat limit)%nat ->
  forall k log,
    (k <= length h)%nat ->
    exists pages w',
      pull (S (length pages))
        (Build_World
           (MessageIterator.Build (remote h) ch UP true (cursor_at h k) None
              limit None []) log) =
      (map Batch pages, Some StopIteration, w') /\
      concat pages = reverse (take k h) /\
      Forall (fun p => (1 <= length p <= Z.to_nat limit)%nat) pages.
Proof.
  intros Hinc Hlimit k.
  induction k as [k IH] using lt_wf_ind. intros log Hk.
  pose proof (cursor_at_response h ch limit k None Hinc Hk) as Hresp.
  destruct k as [|k'].
  - exists []. eexists. split; [|split; [reflexivity|constructor]].
    cbn [length pull map].
    rewrite (next_up_stop (remote h) ch (cursor_at h 0) limit log);
      [reflexivity|].
    rewrite Hresp. reflexivity.
  - set (k := S k') in *. set (c := Z.to_nat limit) in *.
    assert (Hlt : (k - c < k)%nat) by lia.
    destruct (lookup_lt_is_Some_2 h (k - c)) as [m Hm]; [lia|].
    assert (Hlast : last (reverse (drop (k - c) (take k h))) = Some m).
    { rewrite last_reverse_drop, lookup_take_lt by lia. exact Hm. }
    assert (Hcursor : Some (Message.id m) = cursor_at h (k - c)).
    { unfold cursor_at. rewrite Hm. reflexivity. }
    destruct (IH (k - c)%nat Hlt
                (log ++ [channels_messages_list ch (cursor_at h k) None limit]))
      as (pages & w' & Hpull & Hcat & Hall); [lia|].
    exists (reverse (drop (k - c) (take k h)) :: pages), w'.
    split; [|split].
    + change (length (reverse (drop (k - c) (take k h)) :: pages))
        with (S (length pages)).
      remember (S (length pages)) as n eqn:Hn. cbn [pull].
      rewrite (next_up_bulk (remote h) ch (cursor_at h k) limit log
                 (reverse (drop (k - c) (take k h))) m Hresp Hlast).
      rewrite Hcursor, Hpull. reflexivity.
    + cbn [concat]. rewrite Hcat, <- reverse_app. f_equal.
      assert (Hprefix : take (k - c) h = take (k - c) (take k h))
        by (rewrite take_take, Nat.min_l by lia; reflexivity).
      rewrite Hprefix. apply take_drop.
    + constructor; [|exact Hall].
      rewrite length_reverse, length_drop, length_take. lia.
Qed.

(** An upward bulk iterator built without cursors over a history with
    increasing ids and a chunk size of at least one reads the whole
    history: its batches, put end to end, are the history from the newest
    message to the oldest, each message once; no batch is empty or longer
    than the chunk size; and the call after the last batch raises
    [StopIteration]. *)
Theorem up_scan_reads_whole_history (h : list Message.t) (ch : snowflake)
    (limit : Z) :
  increasing h = true ->
  1 <= limit ->
  exists it pages w',
    MessageIterator__init__ (remote h) ch UP true None None limit =
      Return it /\
    pull (S (length pages)) (start it) =
      (map Batch pages, Some StopIteration, w') /\
    concat pages = reverse h /\
    Forall (fun p => (1 <= length p <= Z.to_nat limit)%nat) pages.
Proof.
  intros Hinc Hlimit.
  destruct (up_scan_from h ch limit Hinc) with (k := length h) (log := @nil ApiCall)
    as (pages & w' & Hpull & Hcat & Hall); [lia|lia|].
  eexists _, pages, w'. split; [reflexivity|].
  split; [|split; [|exact Hall]].
  - unfold start. unfold cursor_at in Hpull.
    rewrite (proj2 (lookup_ge_None h (length h))) in Hpull by lia.
    exact Hpull.
  - rewrite Hcat, firstn_all. reflexivity.
Qed.

Lemma up_scan_reads_whole_history_witness :
  exists pages,
    fst (fst (pull (S (length pages)) (start bulk_five))) = map Batch pages /\
    concat pages = reverse (numbered 1 5).
Proof.
  destruct (up_scan_reads_whole_history (numbered 1 5) 5 2)
    as (it & pages & w' & Hit & Hpull & Hcat & _); [reflexivity|lia|].
  rewrite MessageIterator__init__unfold in Hit.
  cbn [Direction_eqb andb] in Hit. injection Hit as <-.
  exists pages. split; [|exact Hcat].
  unfold bulk_five. rewrite Hpull. reflexivity.
Defined.

(** ** The [after] cursor is sent at the start only *)

Lemma fill_after_None (w : World) :
  MessageIterator.after (self w) = None ->
  MessageIterator.after (self (snd (fill w))) = None.
Proof.
  intros Hafter. rewrite fill_unfold.
  destruct (last (response (self w))) as [m|]; cbn [snd self].
  - apply filled_after.
  - exact Hafter.
Qed.

Lemma deliver_cursors (w : World) :
  MessageIterator.after (self (snd (deliver w))) =
    MessageIterator.after (self w) /\
  MessageIterator.before (self (snd (deliver w))) =
    MessageIterator.before (self w).
Proof.
  unfold deliver. destruct (MessageIterator.bulk (self w)); [split; reflexivity|].
  destruct (last (MessageIterator._buffer (self w))); split; reflexivity.
Qed.

Lemma invoke_after_None (m : Method) (w : World) :
  MessageIterator.after (self w) = None ->
  MessageIterator.after (self (invoke m w)) = None.
Proof.
  intros Hafter. destruct m; cbn [invoke]; [apply fill_after_None, Hafter|].
  rewrite next_unfold.
  destruct (MessageIterator._buffer (self w)).
  - pose proof (fill_after_None w Hafter) as Hfill.
    destruct (fill w) as [[[]|e] w1]; cbn [snd] in *; [|exact Hfill].
    rewrite (proj1 (deliver_cursors w1)). exact Hfill.
  - rewrite (proj1 (deliver_cursors w)). exact Hafter.
Qed.

Lemma requests_without_after (calls : list Method) :
  forall w : World,
    MessageIterator.after (self w) = None ->
    exists sent,
      api_log (invoke_all calls w) = api_log w ++ sent /\
      Forall (fun c => exists before,
                  c = channels_messages_list
                        (MessageIterator.channel (self w)) before None
                        (MessageIterator.chunk_size (self w))) sent.
Proof.
  induction calls as [|m calls IH]; intros w Hafter.
  - exists []. rewrite app_nil_r. split; [reflexivity|constructor].
  - destruct (invoke_step m w) as [(_ & Hch & _ & _ & Hsize & _) Hlog].
    destruct (IH (invoke m w) (invoke_after_None m w Hafter))
      as (sent & Hsent & Hall).
    change (invoke_all (m :: calls) w) with (invoke_all calls (invoke m w)).
    rewrite <- Hch, <- Hsize in Hall.
    destruct Hlog as [Hlog|Hlog]; rewrite Hlog in Hsent.
    + exists sent. split; assumption.
    + exists (request (self w) :: sent).
      split; [rewrite Hsent, <- app_assoc; reflexivity|].
      constructor; [|exact Hall].
      unfold request. rewrite Hafter. eauto.
Qed.

(** An iterator that holds no [after] cursor never sends one, in either
    direction and whatever calls follow; as a fill that stores a page
    clears the cursor, an [after] given at construction is sent in the
    requests up to the first stored page and never again. *)
Theorem after_cursor_is_never_sent_again (w : World) (calls : list Method) :
  (MessageIterator.after (self w) = None \/ fst (fill w) = Return tt) ->
  exists sent,
    api_log (invoke_all calls (snd (fill w))) =
      api_log (snd (fill w)) ++ sent /\
    Forall (fun c => exists before,
                c = channels_messages_list
                      (MessageIterator.channel (self w)) before None
                      (MessageIterator.chunk_size (self w))) sent.
Proof.
  intros Hcase.
  assert (Hafter : MessageIterator.after (self (snd (fill w))) = None).
  { destruct Hcase as [Hnone|Hfill]; [apply fill_after_None, Hnone|].
    rewrite fill_unfold in *.
    destruct (last (response (self w))) as [m|]; [|discriminate].
    apply filled_after. }
  destruct (requests_without_after calls (snd (fill w)) Hafter)
    as (sent & Hsent & Hall).
  destruct (fill_settings w) as (_ & Hch & _ & _ & Hsize & _).
  rewrite <- Hch, <- Hsize in Hall. exists sent. split; assumption.
Qed.

Lemma after_cursor_is_never_sent_again_witness :
  exists sent,
    api_log (invoke_all [call_next; call_next; call_fill]
               (snd (fill (start downwards)))) =
      [channels_messages_list 5 None (Some 1) 100] ++ sent /\
    Forall (fun c => exists before,
                c = channels_messages_list 5 before None 100) sent.
Proof.
  apply (after_cursor_is_never_sent_again (start downwards)
           [call_next; call_next; call_fill]).
  right. reflexivity.
Defined.

(** ** Channel.messages *)

(** The [messages] property of a channel always yields an iterator: an
    upward, per-message one with a chunk size of 100, no cursor and an
    empty buffer.  Whatever calls follow, it only lists this channel, 100
    messages at a time, and never with an [after] cursor. *)
Theorem messages_lists_this_channel (client : Client.t) (chan : Channel.t) :
  exists it,
    messages client chan = Return it /\
    it = MessageIterator.Build client (Channel.id chan) UP false None None
           100 None [] /\
    forall calls : list Method,
      Forall (fun c => exists before,
                  c = channels_messages_list (Channel.id chan) before None
                        100)
             (api_log (invoke_all calls (start it))).
Proof.
  exists (MessageIterator.Build client (Channel.id chan) UP false None None
            100 None []).
  split; [reflexivity|]. split; [reflexivity|].
  intros calls.
  destruct (requests_without_after calls
              (start (MessageIterator.Build client (Channel.id chan) UP false
                        None None 100 None [])))
    as (sent & Hsent & Hall); [reflexivity|].
  rewrite Hsent. exact Hall.
Qed.

(** ** An upward scan, message by message *)

Lemma concat_reverse_Permutation (pages : list (list Message.t)) :
  concat (map reverse pages) ≡ₚ concat pages.
Proof.
  induction pages as [|p pages IH]; [reflexivity|].
  cbn [map concat]. rewrite IH, reverse_Permutation. reflexivity.
Qed.

(** In per-message mode, the default, an upward iterator built without
    cursors over a history with increasing ids and a chunk size of at
    least one yields every message of the history exactly once, in as many
    calls as there are messages, and the call after them raises
    [StopIteration]. *)
Theorem up_scan_yields_each_message_once (h : list Message.t)
    (ch : snowflake) (limit : Z) :
  increasing h = true ->
  1 <= limit ->
  exists it ms w',
    MessageIterator__init__ (remote h) ch UP false None None limit =
      Return it /\
    pull (S (length h)) (start it) =
      (map Single ms, Some StopIteration, w') /\
    ms ≡ₚ h.
Proof.
  intros Hinc Hlimit.
  destruct (up_scan_from h ch limit Hinc) with (k := length h)
                                               (log := @nil ApiCall)
    as (pages & wb & Hpull & Hcat & _); [lia|lia|].
  unfold cursor_at in Hpull.
  rewrite (proj2 (lookup_ge_None h (length h))) in Hpull by lia.
  rewrite firstn_all in Hcat.
  match type of Hpull with
  | pull _ (Build_World ?it []) = _ =>
      change (Build_World it []) with (start it) in Hpull;
      assert (Htwins : twins (start it) (start (as_single it)))
        by (repeat split)
  end.
  destruct (twins_pull _ _ _ Htwins _ _ _ Hpull)
    as (pages' & ws & Hbatches & _ & Hsingle & _).
  assert (Hsame : pages' = pages).
  { clear -Hbatches. revert pages' Hbatches.
    induction pages as [|p pages IH]; intros [|p' pages'] Heq;
      try discriminate; [reflexivity|].
    cbn [map] in Heq. injection Heq as -> Heq.
    rewrite (IH pages' Heq). reflexivity. }
  subst pages'.
  eexists _, (concat (map reverse pages)), ws.
  split; [reflexivity|]. split.
  - rewrite Hcat, length_reverse, Nat.add_1_r in Hsingle. exact Hsingle.
  - rewrite concat_reverse_Permutation, Hcat. apply reverse_Permutation.
Qed.

Lemma up_scan_yields_each_message_once_witness :
  exists ms,
    fst (fst (pull 6 (start single_five))) = map Single ms /\
    ms ≡ₚ numbered 1 5.
Proof.
  destruct (up_scan_yields_each_message_once (numbered 1 5) 5 2)
    as (it & ms & w' & Hit & Hpull & Hperm); [reflexivity|lia|].
  rewrite MessageIterator__init__unfold in Hit.
  cbn [Direction_eqb andb] in Hit. injection Hit as <-.
  exists ms. split; [|exact Hperm].
  change 6%nat with (S (length (numbered 1 5))).
  unfold single_five. rewrite Hpull. reflexivity.
Defined.

(** ** The outcome of [next] for the page the listing returns *)

(** When the listing answers with a page, [next] has two outcomes.  With an
    empty buffer and an empty page it raises [StopIteration], every field
    left as it was and one request made.  In every other case it returns
    a value: [pop] on the buffer and the index [-1] on a stored page never
    raise [IndexError], as [fill] only returns with a buffer that is not
    empty.  (A failure of the listing itself is the client's exception;
    the client of this model always answers.) *)
Theorem next_outcome_by_page (w : World) :
  (MessageIterator._buffer (self w) = [] ->
   response (self w) = [] ->
   next w =
   (Raise StopIteration,
    Build_World (self w) (api_log w ++ [request (self w)]))) /\
  (MessageIterator._buffer (self w) <> [] \/ response (self w) <> [] ->
   exists y, fst (next w) = Return y).
Proof.
  split.
  - intros Hbuf Hpage. apply next_stop, next_raise_cases.
    repeat split; assumption.
  - intros Hsome. destruct (fst (next w)) as [y|e] eqn:Hnext;
      [exists y; reflexivity|].
    apply next_raise_cases in Hnext as (_ & Hbuf & Hpage).
    destruct Hsome as [Hne|Hne]; contradiction.
Qed.

Lemma next_outcome_by_page_witness :
  fst (next (snd (fill halfway))) = Raise StopIteration /\
  (exists y, fst (next halfway) = Return y) /\
  (exists y, fst (next (start two_messages)) = Return y).
Proof.
  split; [|split].
  - destruct (next_outcome_by_page (snd (fill halfway))) as [Hstop _].
    rewrite Hstop; reflexivity.
  - destruct (next_outcome_by_page halfway) as [_ Hvalue].
    apply Hvalue. left. discriminate.
  - destruct (next_outcome_by_page (start two_messages)) as [_ Hvalue].
    apply Hvalue. right. vm_compute. discriminate.
Defined.
